(** * Email extraction and categorization engine: a shallow embedding

    The development follows the three Python modules of the repository:
    [extractor.py] (class [EmailExtractor]), [categorizer.py] (class
    [EmailCategorizer]) and [engine.py] (class [EmailEngine]).

    Modelling conventions.
    - A Python [str] is a Rocq [string]; a character is read as the code
      point of the same number (0..255).  The two tables of the Python
      run-time that the code relies on, [str.lower] and the word characters
      of [\b], are written out for that range.
    - A [dict] is an association list in insertion order: Python dictionaries
      iterate in insertion order and the code depends on it (first match
      wins).
    - A method that can raise returns a sum; an engine method returns the
      engine after the call together with the outcome, so that what a failed
      call leaves behind can be stated.
    - What lies outside the repository (user supplied regular expressions,
      the file system, [str] of a list) is a [Host] record the definitions
      are parameterised by. *)

From Stdlib Require Import List String Ascii Bool Arith Lia Permutation Sorted.
Import ListNotations.

Open Scope string_scope.
Open Scope list_scope.
Open Scope nat_scope.

(* ================================================================== *)
(** ** Python strings *)

Module PyStr.

Definition code (c : ascii) : nat := nat_of_ascii c.

Definition between (lo hi : nat) (c : ascii) : bool :=
  (lo <=? code c) && (code c <=? hi).

Definition is_upper (c : ascii) : bool := between 65 90 c.
Definition is_lower (c : ascii) : bool := between 97 122 c.
Definition is_digit (c : ascii) : bool := between 48 57 c.
Definition is_alpha (c : ascii) : bool := is_upper c || is_lower c.
Definition is_alnum (c : ascii) : bool := is_alpha c || is_digit c.

(** Characters with a lower-case partner: A-Z and, above 127, the capital
    letters U+00C0..U+00D6 and U+00D8..U+00DE; the partner is 32 further. *)
Definition has_lower (c : ascii) : bool :=
  is_upper c || between 192 214 c || between 216 222 c.

Definition lower_char (c : ascii) : ascii :=
  if has_lower c then ascii_of_nat (code c + 32) else c.

(** [str.lower()] *)
Fixpoint lower (s : string) : string :=
  match s with
  | EmptyString => EmptyString
  | String c s' => String (lower_char c) (lower s')
  end.

(** The characters [\w] matches in a [str] pattern: alphanumerics and the
    underscore, the alphanumerics above 127 being those of Unicode. *)
Definition is_word (c : ascii) : bool :=
  is_alnum c || (code c =? 95)
  || (code c =? 170) || between 178 179 c || (code c =? 181)
  || between 185 186 c || between 188 190 c
  || between 192 214 c || between 216 246 c || between 248 255 c.

(** [c in s] for a single character *)
Fixpoint has_char (c : ascii) (s : string) : bool :=
  match s with
  | EmptyString => false
  | String d s' => Ascii.eqb d c || has_char c s'
  end.

Fixpoint all_chars (f : ascii -> bool) (s : string) : bool :=
  match s with
  | EmptyString => true
  | String c s' => f c && all_chars f s'
  end.

(** [s.startswith(p)] *)
Fixpoint startswith (s p : string) : bool :=
  match p, s with
  | EmptyString, _ => true
  | String _ _, EmptyString => false
  | String a p', String b s' => Ascii.eqb a b && startswith s' p'
  end.

(** [needle in hay] *)
Fixpoint contains (needle hay : string) : bool :=
  startswith hay needle ||
  match hay with
  | EmptyString => false
  | String _ hay' => contains needle hay'
  end.

(** [s.endswith(suf)] *)
Definition endswith (s suf : string) : bool :=
  let n := String.length s in
  let k := String.length suf in
  (k <=? n) && String.eqb (substring (n - k) k s) suf.

(** [s.split(sep)] for a separator of one character: always at least one
    part, empty parts kept. *)
Fixpoint split (sep : ascii) (s : string) : list string :=
  match s with
  | EmptyString => [EmptyString]
  | String c s' =>
      if Ascii.eqb c sep then EmptyString :: split sep s'
      else match split sep s' with
           | [] => [String c EmptyString]
           | part :: parts => String c part :: parts
           end
  end.

(** [x in xs] for a collection of strings *)
Definition mem (x : string) (xs : list string) : bool :=
  existsb (String.eqb x) xs.

(** Truthiness of a string: [not s] holds of the empty string only. *)
Definition truthy (s : string) : bool :=
  match s with EmptyString => false | String _ _ => true end.

(** The characters [str.isspace] holds of, which [str.strip()] removes. *)
Definition is_space (c : ascii) : bool :=
  between 9 13 c || between 28 32 c || (code c =? 133) || (code c =? 160).

Fixpoint lstrip (s : string) : string :=
  match s with
  | EmptyString => EmptyString
  | String c s' => if is_space c then lstrip s' else s
  end.

Fixpoint rstrip (s : string) : string :=
  match s with
  | EmptyString => EmptyString
  | String c s' =>
      match rstrip s' with
      | EmptyString => if is_space c then EmptyString else String c EmptyString
      | String d r => String c (String d r)
      end
  end.

(** [s.strip()] *)
Definition strip (s : string) : string := rstrip (lstrip s).

End PyStr.

(* ================================================================== *)
(** ** The fragment of [re] the extractor's pattern is written in

    A pattern is a sequence of items: the assertion [\b], a literal
    character, and a greedy repetition [cls{min,}] of a character class.
    The matcher is the backtracking one of Python: a repetition first takes
    as many characters as it can and gives them back one at a time while the
    rest of the pattern fails. *)

Module Re.

Inductive item : Type :=
| Boundary
| Lit (c : ascii)
| Rep (cls : ascii -> bool) (min : nat).

Definition pattern : Type := list item.

Definition peek (s : string) : option ascii :=
  match s with EmptyString => None | String c _ => Some c end.

Definition word_at (o : option ascii) : bool :=
  match o with Some c => PyStr.is_word c | None => false end.

(** [\b]: exactly one of the two neighbours is a word character, the ends of
    the string counting as non-word. *)
Definition is_boundary (prev next : option ascii) : bool :=
  xorb (word_at prev) (word_at next).

(** The repetition, [n] characters taken so far, [k] the rest of the
    pattern.  The result is the number of characters matched from here. *)
Fixpoint rep (cls : ascii -> bool) (min : nat)
    (k : option ascii -> string -> option nat)
    (n : nat) (prev : option ascii) (s : string) : option nat :=
  let stop := if min <=? n then k prev s else None in
  match s with
  | String d s' =>
      if cls d then
        match rep cls min k (S n) (Some d) s' with
        | Some r => Some (S r)
        | None => stop
        end
      else stop
  | EmptyString => stop
  end.

(** Matching at the current position; [prev] is the character before it.
    With [full] the match has to end at the end of the string
    ([fullmatch]), and the matcher backtracks until it does. *)
Fixpoint match_here (full : bool) (p : pattern)
    : option ascii -> string -> option nat :=
  match p with
  | [] => fun _ s =>
      if full then match s with EmptyString => Some 0 | String _ _ => None end
      else Some 0
  | Boundary :: p' => fun prev s =>
      if is_boundary prev (peek s) then match_here full p' prev s else None
  | Lit c :: p' => fun _ s =>
      match s with
      | String d s' =>
          if Ascii.eqb d c then option_map S (match_here full p' (Some d) s')
          else None
      | EmptyString => None
      end
  | Rep cls min :: p' => rep cls min (match_here full p') 0
  end.

(** [pattern.fullmatch(s)], as a truth value *)
Definition fullmatch (p : pattern) (s : string) : bool :=
  match match_here true p None s with Some _ => true | None => false end.

(** [pattern.search]: the leftmost position where the pattern matches, as
    (characters skipped, length of the match). *)
Fixpoint search (p : pattern) (prev : option ascii) (s : string)
    : option (nat * nat) :=
  match match_here false p prev s with
  | Some n => Some (0, n)
  | None =>
      match s with
      | EmptyString => None
      | String c s' =>
          match search p (Some c) s' with
          | Some (k, n) => Some (S k, n)
          | None => None
          end
      end
  end.

(** Dropping [n] characters, remembering the last one dropped. *)
Fixpoint advance (n : nat) (prev : option ascii) (s : string)
    : option ascii * string :=
  match n, s with
  | S n', String c s' => advance n' (Some c) s'
  | _, _ => (prev, s)
  end.

(** [pattern.finditer]: the matches from left to right, none overlapping,
    each with its offset in the text.  [off] is the offset of [s] in the
    text.  The scan resumes where the match ended; after an empty match it
    moves one character on. *)
Fixpoint finditer_from (fuel : nat) (p : pattern) (off : nat)
    (prev : option ascii) (s : string) : list (nat * string) :=
  match fuel with
  | 0 => []
  | S fuel' =>
      match search p prev s with
      | None => []
      | Some (k, n) =>
          let step := k + Nat.max 1 n in
          let '(prev', s') := advance step prev s in
          (off + k, substring k n s)
            :: (if String.length s <? step then []
                else finditer_from fuel' p (off + step) prev' s')
      end
  end.

Definition finditer (p : pattern) (text : string) : list (nat * string) :=
  finditer_from (S (String.length text)) p 0 None text.

(** [pattern.findall] of a pattern without groups: the matched texts. *)
Definition findall (p : pattern) (text : string) : list string :=
  map snd (finditer p text).

End Re.

(* ================================================================== *)
(** ** The world outside the repository *)

(** What the code calls and the repository does not define: the [re] module
    on patterns the caller supplies, the file system, and [str] of a list. *)
Record Host : Type := {
  regex : Type;
  (** [re.compile(pattern)]; [None] when it raises *)
  re_compile : string -> option regex;
  (** [bool(compiled.match(s))]: a match at the start of [s] *)
  re_match : regex -> string -> bool;
  (** [Path(p).exists()] *)
  path_exists : string -> bool;
  (** opening and reading a file as text: the contents, or on the left
      [str(e)] of the exception raised *)
  read_text : string -> string + string;
  (** [Path(p).is_dir()] *)
  is_dir : string -> bool;
  (** the entries of [Path(p).glob('*')] that are files *)
  glob_files : string -> list string;
  (** [str(source)] of a list *)
  str_of_list : list string -> string
}.

Inductive error : Type :=
| ValueError (msg : string)
| FileNotFoundError (msg : string)
| IOError (msg : string)
| NotADirectoryError (msg : string)
| TypeError
| RegexError.

(* ================================================================== *)
(** ** extractor.py *)

Module EmailExtractor.

Import PyStr.

(** [[A-Za-z0-9._%+-]] *)
Definition local_class (c : ascii) : bool :=
  is_alnum c || has_char c "._%+-".

(** [[A-Za-z0-9.-]] *)
Definition domain_class (c : ascii) : bool :=
  is_alnum c || has_char c ".-".

(** [[A-Z|a-z]]: inside a class the bar is a character like any other. *)
Definition tld_class (c : ascii) : bool :=
  is_upper c || has_char c "|" || is_lower c.

(** [\b[A-Za-z0-9._%+-]+@[A-Za-z0-9.-]+\.[A-Z|a-z]{2,}\b] *)
Definition EMAIL_PATTERN : Re.pattern :=
  [ Re.Boundary; Re.Rep local_class 1; Re.Lit "@"; Re.Rep domain_class 1;
    Re.Lit "."; Re.Rep tld_class 2; Re.Boundary ].

(** The object: the case mode and the set of all addresses seen. *)
Record t : Type := {
  case_sensitive : bool;
  _extracted_emails : list string
}.

Definition init (case_sensitive : bool) : t :=
  {| case_sensitive := case_sensitive; _extracted_emails := [] |}.

(** [set.add] on a set kept as a list *)
Definition set_add (x : string) (s : list string) : list string :=
  if mem x s then s else s ++ [x].

(** One turn of the loop of [extract_from_text] over
    [(seen, unique_emails, self._extracted_emails)]. *)
Definition text_step (st : list string * list string * list string)
    (email : string) : list string * list string * list string :=
  let '(seen, unique_emails, cache) := st in
  if mem email seen then st
  else (set_add email seen, unique_emails ++ [email], set_add email cache).

Definition extract_from_text (self : t) (text : string) : t * list string :=
  if negb (truthy text) then (self, [])
  else
    let emails := Re.findall EMAIL_PATTERN text in
    let emails := if case_sensitive self then emails else map lower emails in
    let '(_, unique_emails, cache) :=
      fold_left text_step emails ([], [], _extracted_emails self) in
    ({| case_sensitive := case_sensitive self; _extracted_emails := cache |},
     unique_emails).

Definition extract_from_file (h : Host) (self : t) (file_path : string)
    : t * (error + list string) :=
  if negb (path_exists h file_path) then
    (self, inl (FileNotFoundError ("File not found: " ++ file_path)%string))
  else
    match read_text h file_path with
    | inr text =>
        let '(self', r) := extract_from_text self text in (self', inr r)
    | inl e =>
        (self, inl (IOError
           ("Error reading file " ++ file_path ++ ": " ++ e)%string))
    end.

(** One turn of the second loop of [extract_from_files] over
    [(seen, unique_emails)]. *)
Definition files_step (st : list string * list string) (email : string)
    : list string * list string :=
  let '(seen, unique_emails) := st in
  if mem email seen then st
  else (set_add email seen, unique_emails ++ [email]).

(** The files that cannot be read are skipped with a warning. *)
Definition extract_from_files (h : Host) (self : t) (file_paths : list string)
    : t * list string :=
  let '(self', all_emails) :=
    fold_left
      (fun (st : t * list string) file_path =>
         let '(self0, all_emails) := st in
         match extract_from_file h self0 file_path with
         | (self1, inr emails) => (self1, all_emails ++ emails)
         | (self1, inl _) => (self1, all_emails)
         end)
      file_paths (self, []) in
  (self', snd (fold_left files_step all_emails ([], []))).

(** With the defaults the engine calls it with: not recursive, every file. *)
Definition extract_from_directory (h : Host) (self : t)
    (directory_path : string) : t * (error + list string) :=
  if negb (is_dir h directory_path) then
    (self, inl (NotADirectoryError
       ("Not a directory: " ++ directory_path)%string))
  else
    let '(self', r) := extract_from_files h self (glob_files h directory_path)
    in (self', inr r).

Definition clear_cache (self : t) : t :=
  {| case_sensitive := case_sensitive self; _extracted_emails := [] |}.

Definition validate_email (email : string) : bool :=
  Re.fullmatch EMAIL_PATTERN email.

Definition normalize_email (email : string) : string :=
  strip (lower email).

End EmailExtractor.

(* ================================================================== *)
(** ** categorizer.py *)

Module EmailCategorizer.

Import PyStr.

(** A category map: labels in insertion order, each with its addresses in
    the order they were appended. *)
Definition catmap : Type := list (string * list string).

Fixpoint lookup (k : string) (m : catmap) : option (list string) :=
  match m with
  | [] => None
  | (k', l) :: m' => if String.eqb k' k then Some l else lookup k m'
  end.

(** [categories[k].append(v)] on a [defaultdict(list)]: a label not yet
    there is added after the others.  On the plain dictionary of
    [categorize_by_type] it is only used at labels that are there. *)
Fixpoint append_to (k v : string) (m : catmap) : catmap :=
  match m with
  | [] => [(k, [v])]
  | (k', l) :: m' =>
      if String.eqb k' k then (k', l ++ [v]) :: m'
      else (k', l) :: append_to k v m'
  end.

(** All the addresses of a map, category after category. *)
Definition all_values (m : catmap) : list string :=
  List.concat (List.map snd m).

Definition FREE_EMAIL_DOMAINS : list string :=
  [ "gmail.com"; "yahoo.com"; "hotmail.com"; "outlook.com";
    "aol.com"; "icloud.com"; "mail.com"; "protonmail.com";
    "yandex.com"; "zoho.com" ].

Definition BUSINESS_DOMAINS : list string :=
  [ "company.com"; "corp.com"; "enterprise.com"; "business.com" ].

Definition EDUCATIONAL_DOMAINS : list string :=
  [ "edu"; "ac.uk"; "edu.au"; "edu.cn"; "ac.in" ].

(** [email.split('@')[1].lower()], [None] where the index is out of range *)
Definition _extract_domain (email : string) : option string :=
  match nth_error (split "@" email) 1 with
  | Some d => Some (lower d)
  | None => None
  end.

Definition _is_business_domain (domain : string) : bool :=
  let parts := split "." domain in
  (2 <=? List.length parts) && negb (mem domain FREE_EMAIL_DOMAINS).

(** [if domain:] holds of a domain that is there and not empty. *)
Definition domain_step (categories : catmap) (email : string) : catmap :=
  match _extract_domain email with
  | Some domain =>
      if truthy domain then append_to domain email categories
      else categories
  | None => categories
  end.

Definition categorize_by_domain (emails : list string) : catmap :=
  fold_left domain_step emails [].

Definition type_step (categories : catmap) (email : string) : catmap :=
  match _extract_domain email with
  | None => append_to "other" email categories
  | Some domain =>
      if negb (truthy domain) then append_to "other" email categories
      else if mem domain FREE_EMAIL_DOMAINS then
        append_to "free" email categories
      else if existsb (endswith domain) EDUCATIONAL_DOMAINS then
        append_to "educational" email categories
      else if endswith domain ".gov" || String.eqb domain "gov.uk"
              || endswith domain ".gov.uk" then
        append_to "government" email categories
      else if mem domain BUSINESS_DOMAINS || _is_business_domain domain then
        append_to "business" email categories
      else append_to "other" email categories
  end.

Definition categorize_by_type (emails : list string) : catmap :=
  fold_left type_step emails
    [ ("free", []); ("business", []); ("educational", []);
      ("government", []); ("other", []) ].

(** The two nested loops over [keywords.items()] with their [break]s: the
    first category one of whose keywords occurs in the address. *)
Fixpoint keyword_scan (email_lower : string)
    (keywords : list (string * list string)) : option string :=
  match keywords with
  | [] => None
  | (category, keyword_list) :: rest =>
      if existsb (fun keyword => contains (lower keyword) email_lower)
           keyword_list
      then Some category
      else keyword_scan email_lower rest
  end.

Definition keywords_step (keywords : list (string * list string))
    (categories : catmap) (email : string) : catmap :=
  match keyword_scan (lower email) keywords with
  | Some category => append_to category email categories
  | None => append_to "uncategorized" email categories
  end.

Definition categorize_by_keywords (emails : list string)
    (keywords : list (string * list string)) : catmap :=
  fold_left (keywords_step keywords) emails [].

Section Pattern.

Variable h : Host.

(** The dictionary comprehension: every pattern is compiled before the
    first address is looked at, and one that does not compile raises. *)
Fixpoint compile_all (patterns : list (string * string))
    : option (list (string * regex h)) :=
  match patterns with
  | [] => Some []
  | (category, pattern) :: rest =>
      match re_compile h pattern, compile_all rest with
      | Some r, Some rs => Some ((category, r) :: rs)
      | _, _ => None
      end
  end.

Fixpoint pattern_scan (email : string)
    (compiled_patterns : list (string * regex h)) : option string :=
  match compiled_patterns with
  | [] => None
  | (category, pattern) :: rest =>
      if re_match h pattern email then Some category
      else pattern_scan email rest
  end.

Definition pattern_step (compiled_patterns : list (string * regex h))
    (categories : catmap) (email : string) : catmap :=
  match pattern_scan email compiled_patterns with
  | Some category => append_to category email categories
  | None => append_to "uncategorized" email categories
  end.

Definition categorize_by_pattern (emails : list string)
    (patterns : list (string * string)) : error + catmap :=
  match compile_all patterns with
  | None => inl RegexError
  | Some compiled_patterns =>
      inr (fold_left (pattern_step compiled_patterns) emails [])
  end.

End Pattern.

(** A rule of the caller: [Some b] when it returns, [None] when it raises. *)
Definition rule : Type := string -> option bool.

(** The loop over [rules.items()]: a rule that raises is reported and the
    next one is tried. *)
Fixpoint rule_scan (email : string) (rules : list (string * rule))
    : option string :=
  match rules with
  | [] => None
  | (category, rule_func) :: rest =>
      match rule_func email with
      | Some true => Some category
      | Some false => rule_scan email rest
      | None => rule_scan email rest
      end
  end.

Definition custom_step (rules : list (string * rule))
    (categories : catmap) (email : string) : catmap :=
  match rule_scan email rules with
  | Some category => append_to category email categories
  | None => append_to "uncategorized" email categories
  end.

Definition categorize_by_custom_rule (emails : list string)
    (rules : list (string * rule)) : catmap :=
  fold_left (custom_step rules) emails [].

(** [dict[k] = v]: the value of a label that is there is replaced in place,
    a new label goes after the others. *)
Fixpoint assign {V : Type} (k : string) (v : V) (d : list (string * V))
    : list (string * V) :=
  match d with
  | [] => [(k, v)]
  | (k', v') :: d' =>
      if String.eqb k' k then (k', v) :: d' else (k', v') :: assign k v d'
  end.

(** [d.get(k)] *)
Fixpoint dict_get {V : Type} (k : string) (d : list (string * V)) : option V :=
  match d with
  | [] => None
  | (k', v) :: d' => if String.eqb k' k then Some v else dict_get k d'
  end.

(** Only the methods [domain] and [type] are known here; any other name
    is passed over. *)
Definition categorize_multi (emails : list string) (methods : list string)
    : list (string * catmap) :=
  fold_left
    (fun results method =>
       if String.eqb method "domain" then
         assign "domain" (categorize_by_domain emails) results
       else if String.eqb method "type" then
         assign "type" (categorize_by_type emails) results
       else results)
    methods [].

Definition get_statistics (categorized : catmap) : list (string * nat) :=
  map (fun '(category, emails) => (category, List.length emails)) categorized.

(** The labels are gone through in the order they are asked for; one that
    is not in the map adds nothing. *)
Definition filter_by_category (categorized : catmap)
    (categories : list string) : list string :=
  fold_left
    (fun filtered category =>
       match lookup category categorized with
       | Some emails => filtered ++ emails
       | None => filtered
       end)
    categories [].

(** The map is gone through in its own order. *)
Definition exclude_categories (categorized : catmap)
    (categories : list string) : list string :=
  fold_left
    (fun filtered '(category, emails) =>
       if mem category categories then filtered else filtered ++ emails)
    categorized [].

End EmailCategorizer.

(* ================================================================== *)
(** ** engine.py *)

Module EmailEngine.

Import EmailCategorizer.

Record t : Type := {
  extractor : EmailExtractor.t;
  emails : list string;
  categorized : catmap
}.

Definition init (case_sensitive : bool) : t :=
  {| extractor := EmailExtractor.init case_sensitive;
     emails := [];
     categorized := [] |}.

(** The [source] argument: a string (text or path) or a list of paths. *)
Inductive source : Type :=
| Str (s : string)
| Paths (l : list string).

(** The keyword arguments [categorize] looks at; [None] for one not given. *)
Record kwargs : Type := {
  keywords : option (list (string * list string));
  patterns : option (list (string * string));
  rules : option (list (string * rule))
}.

Definition no_kwargs : kwargs :=
  {| keywords := None; patterns := None; rules := None |}.

(** [not d] for the value of [kwargs.get]: absent, or an empty mapping. *)
Definition falsy {A : Type} (d : option (list A)) : bool :=
  match d with
  | None => true
  | Some [] => true
  | Some (_ :: _) => false
  end.

Definition get {A : Type} (d : option (list A)) : list A :=
  match d with Some l => l | None => [] end.

Definition set_emails (self : t) (x : EmailExtractor.t) (l : list string) : t :=
  {| extractor := x; emails := l; categorized := categorized self |}.

Definition set_categorized (self : t) (m : catmap) : t :=
  {| extractor := extractor self; emails := emails self; categorized := m |}.

Section WithHost.

Variable h : Host.

(** A call that raises has not assigned [self.emails]; the extractor is as
    it was too, a failure coming before any address is recorded. *)
Definition extract (self : t) (src : source) (source_type : string)
    : t * (error + list string) :=
  if String.eqb source_type "text" then
    let text := match src with Str s => s | Paths l => str_of_list h l end in
    let '(x, r) := EmailExtractor.extract_from_text (extractor self) text in
    (set_emails self x r, inr r)
  else if String.eqb source_type "file" then
    match src with
    | Str file_path =>
        match EmailExtractor.extract_from_file h (extractor self) file_path with
        | (x, inr r) => (set_emails self x r, inr r)
        | (_, inl e) => (self, inl e)
        end
    | Paths _ => (self, inl TypeError)
    end
  else if String.eqb source_type "files" then
    match src with
    | Paths file_paths =>
        let '(x, r) :=
          EmailExtractor.extract_from_files h (extractor self) file_paths in
        (set_emails self x r, inr r)
    | Str _ =>
        (self,
         inl (ValueError "For 'files' source_type, source must be a list"))
    end
  else if String.eqb source_type "directory" then
    match src with
    | Str directory_path =>
        match EmailExtractor.extract_from_directory h (extractor self)
                directory_path with
        | (x, inr r) => (set_emails self x r, inr r)
        | (_, inl e) => (self, inl e)
        end
    | Paths _ => (self, inl TypeError)
    end
  else
    (self,
     inl (ValueError
       ("Invalid source_type: " ++ source_type ++ ". "
        ++ "Must be one of: 'text', 'file', 'files', 'directory'")%string)).

Definition categorize (self : t) (method : string) (kw : kwargs)
    : t * (error + catmap) :=
  match emails self with
  | [] => (self, inl (ValueError "No emails to categorize. Run extract() first."))
  | _ :: _ =>
      if String.eqb method "domain" then
        let m := categorize_by_domain (emails self) in
        (set_categorized self m, inr m)
      else if String.eqb method "type" then
        let m := categorize_by_type (emails self) in
        (set_categorized self m, inr m)
      else if String.eqb method "keywords" then
        if falsy (keywords kw) then
          (self,
           inl (ValueError "'keywords' argument required for keywords method"))
        else
          let m := categorize_by_keywords (emails self) (get (keywords kw)) in
          (set_categorized self m, inr m)
      else if String.eqb method "pattern" then
        if falsy (patterns kw) then
          (self,
           inl (ValueError "'patterns' argument required for pattern method"))
        else
          match categorize_by_pattern h (emails self) (get (patterns kw)) with
          | inr m => (set_categorized self m, inr m)
          | inl e => (self, inl e)
          end
      else if String.eqb method "custom" then
        if falsy (rules kw) then
          (self,
           inl (ValueError "'rules' argument required for custom method"))
        else
          let m := categorize_by_custom_rule (emails self) (get (rules kw)) in
          (set_categorized self m, inr m)
      else
        (self,
         inl (ValueError
           ("Invalid method: " ++ method ++ ". "
            ++ "Must be one of: 'domain', 'type', 'keywords', 'pattern', 'custom'")%string))
  end.

End WithHost.

Definition reset (self : t) : t :=
  {| extractor := EmailExtractor.clear_cache (extractor self);
     emails := [];
     categorized := [] |}.

(** What [process] returns: the values at the keys [total_emails],
    [emails], [categorized] and [statistics]. *)
Record process_result : Type := {
  res_total_emails : nat;
  res_emails : list string;
  res_categorized : catmap;
  res_statistics : list (string * nat)
}.

Definition process (h : Host) (self : t) (src : source) (source_type : string)
    (categorization_method : string) (kw : kwargs)
    : t * (error + process_result) :=
  match extract h self src source_type with
  | (self1, inl e) => (self1, inl e)
  | (self1, inr extracted) =>
      match categorize h self1 categorization_method kw with
      | (self2, inl e) => (self2, inl e)
      | (self2, inr m) =>
          (self2,
           inr {| res_total_emails := List.length extracted;
                  res_emails := extracted;
                  res_categorized := m;
                  res_statistics := get_statistics m |})
      end
  end.

(** The rows [export_to_csv] hands to [writer.writerow], in order, once
    the file is open. *)
Definition export_to_csv (self : t) (include_category : bool)
    : list (list string) :=
  match include_category, categorized self with
  | true, _ :: _ =>
      ["Email"; "Category"]
        :: flat_map
             (fun '(category, category_emails) =>
                map (fun email => [email; category]) category_emails)
             (categorized self)
  | _, _ => ["Email"] :: map (fun email => [email]) (emails self)
  end.

(** What [get_summary] returns; the keys [categories] and [statistics] are
    there only with a categorization. *)
Record summary : Type := {
  sum_total_emails : nat;
  sum_has_categorization : bool;
  sum_categories : option (list string);
  sum_statistics : option (list (string * nat))
}.

Definition get_summary (self : t) : summary :=
  match categorized self with
  | [] =>
      {| sum_total_emails := List.length (emails self);
         sum_has_categorization := false;
         sum_categories := None;
         sum_statistics := None |}
  | _ :: _ =>
      {| sum_total_emails := List.length (emails self);
         sum_has_categorization := true;
         sum_categories := Some (map fst (categorized self));
         sum_statistics := Some (get_statistics (categorized self)) |}
  end.

Definition filter_emails (self : t)
    (categories excluded : option (list string)) : error + list string :=
  match categorized self with
  | [] =>
      inl (ValueError "No categorization available. Run categorize() first.")
  | _ :: _ =>
      if negb (falsy categories) then
        inr (filter_by_category (categorized self) (get categories))
      else if negb (falsy excluded) then
        inr (EmailCategorizer.exclude_categories (categorized self)
               (get excluded))
      else inr (emails self)
  end.

End EmailEngine.

(** A host for running the definitions on examples: a pattern is taken
    literally and matches the addresses that start with it, and the file
    system is empty. *)
Definition bare_host : Host :=
  {| regex := string;
     re_compile := fun p => Some p;
     re_match := fun p s => PyStr.startswith s p;
     path_exists := fun _ => false;
     read_text := fun _ => inl "unreadable";
     is_dir := fun _ => false;
     glob_files := fun _ => [];
     str_of_list := fun _ => "[]" |}.


(** A host with a small disk: two readable files, one that exists and
    cannot be read, and a directory that lists the three. *)
Definition disk_host : Host :=
  {| regex := string;
     re_compile := fun p => Some p;
     re_match := fun p s => PyStr.startswith s p;
     path_exists := fun p =>
       String.eqb p "a.txt" || String.eqb p "b.txt"
       || String.eqb p "locked.txt";
     read_text := fun p =>
       if String.eqb p "a.txt" then inr "Ann <ann@x.org>, bob@y.org"
       else if String.eqb p "b.txt" then inr "BOB@y.org; cy@z.net"
       else inl "Permission denied";
     is_dir := fun p => String.eqb p "mail";
     glob_files := fun _ => ["a.txt"; "locked.txt"; "b.txt"];
     str_of_list := fun _ => "[]" |}.

(** A host that takes a pattern literally and refuses to compile one with
    an opening parenthesis in it. *)
Definition literal_host : Host :=
  {| regex := string;
     re_compile := fun p => if PyStr.has_char "(" p then None else Some p;
     re_match := fun p s => PyStr.startswith s p;
     path_exists := fun _ => false;
     read_text := fun _ => inl "unreadable";
     is_dir := fun _ => false;
     glob_files := fun _ => [];
     str_of_list := fun _ => "[]" |}.

(* ================================================================== *)
(** ** Notions the statements are written with *)

Module Notions.

Import PyStr EmailCategorizer.

(** A categorization is one pass that appends every address to the list of
    its label, or leaves it out when it has none. *)
Definition bucket_step (label : string -> option string)
    (m : catmap) (e : string) : catmap :=
  match label e with
  | Some k => append_to k e m
  | None => m
  end.

Definition labelled (label : string -> option string) (e : string) : bool :=
  match label e with Some _ => true | None => false end.

(** Every address listed under a label is one that has this label. *)
Definition Sorted_by (label : string -> option string) (m : catmap) : Prop :=
  forall k l e, In (k, l) m -> In e l -> label e = Some k.

(** No label occurs twice in [m], the category lists of [m] together are
    the list [input] up to order, and no address is listed under two
    labels. *)
Definition Partitions (m : catmap) (input : list string) : Prop :=
  NoDup (map fst m) /\
  Permutation (all_values m) input /\
  (forall e k1 k2 l1 l2,
      In (k1, l1) m -> In (k2, l2) m -> In e l1 -> In e l2 -> k1 = k2).

(** The label each strategy gives an address. *)
Definition domain_label (email : string) : option string :=
  match _extract_domain email with
  | Some domain => if truthy domain then Some domain else None
  | None => None
  end.

Definition type_label (email : string) : string :=
  match _extract_domain email with
  | None => "other"
  | Some domain =>
      if negb (truthy domain) then "other"
      else if mem domain FREE_EMAIL_DOMAINS then "free"
      else if existsb (endswith domain) EDUCATIONAL_DOMAINS then "educational"
      else if endswith domain ".gov" || String.eqb domain "gov.uk"
              || endswith domain ".gov.uk" then "government"
      else if mem domain BUSINESS_DOMAINS || _is_business_domain domain
      then "business"
      else "other"
  end.

(** The map [categorize_by_type] starts from. *)
Definition type_init : catmap :=
  [ ("free", []); ("business", []); ("educational", []);
    ("government", []); ("other", []) ].

Definition or_uncategorized (o : option string) : string :=
  match o with Some category => category | None => "uncategorized" end.

(** The substring after the first [@], as the specification words the
    domain of an address; [None] when there is no [@]. *)
Fixpoint after_first_at (email : string) : option string :=
  match email with
  | EmptyString => None
  | String c rest =>
      if Ascii.eqb c "@" then Some rest else after_first_at rest
  end.

(** The error of [categorize] on an engine that has extracted nothing. *)
Definition no_emails_error : error :=
  ValueError "No emails to categorize. Run extract() first.".

(** The last character of [w], or [prev] when [w] is empty: the character
    before the position reached once [w] has been read. *)
Fixpoint last_char (prev : option ascii) (w : string) : option ascii :=
  match w with
  | EmptyString => prev
  | String c w' => last_char (Some c) w'
  end.

(** What it means for a whole string to match a pattern, [prev] being the
    character before it: the string splits into pieces, one for each item
    of the pattern. *)
Inductive Matches : Re.pattern -> option ascii -> string -> Prop :=
| Matches_nil prev :
    Matches [] prev EmptyString
| Matches_boundary p prev s :
    Re.is_boundary prev (Re.peek s) = true ->
    Matches p prev s ->
    Matches (Re.Boundary :: p) prev s
| Matches_lit c p prev s :
    Matches p (Some c) s ->
    Matches (Re.Lit c :: p) prev (String c s)
| Matches_rep cls min p prev w s :
    all_chars cls w = true ->
    min <= String.length w ->
    Matches p (last_char prev w) s ->
    Matches (Re.Rep cls min :: p) prev (w ++ s)%string.

(** The address pattern as the specification writes it,
    [[A-Za-z0-9._%+-]+@[A-Za-z0-9.-]+\.[A-Za-z]{2,}], matched against the
    whole of [s]. *)
Definition spec_address (s : string) : Prop :=
  exists l d t : string,
    s = (l ++ String "@" (d ++ String "." t))%string /\
    1 <= String.length l /\ all_chars EmailExtractor.local_class l = true /\
    1 <= String.length d /\ all_chars EmailExtractor.domain_class d = true /\
    2 <= String.length t /\ all_chars is_alpha t = true.

(** The case handling of the extractor. *)
Definition norm (case_sensitive : bool) (email : string) : string :=
  if case_sensitive then email else lower email.

(** The offset of the first of the matches [spans], given from left to
    right, that yields the address [x]. *)
Fixpoint first_pos (case_sensitive : bool) (spans : list (nat * string))
    (x : string) : option nat :=
  match spans with
  | [] => None
  | (off, m) :: rest =>
      if String.eqb (norm case_sensitive m) x then Some off
      else first_pos case_sensitive rest x
  end.

(** What holds of the [(seen, unique_emails)] of the extractor once the matches [spans] have
    been gone through. *)
Definition Deduped (cs : bool) (spans : list (nat * string))
    (st : list string * list string) : Prop :=
  fst st = snd st /\
  NoDup (snd st) /\
  (forall x, In x (snd st) <->
             exists off m, In (off, m) spans /\ norm cs m = x) /\
  (forall i j x y,
      i < j -> nth_error (snd st) i = Some x -> nth_error (snd st) j = Some y ->
      exists a b, first_pos cs spans x = Some a /\
                  first_pos cs spans y = Some b /\ a < b).

(** An address as the pattern of the code reads one: a local part, [@], a
    domain, a dot and a top level of at least two characters. *)
Definition Address (x : string) : Prop :=
  exists l d t : string,
    x = (l ++ String "@" (d ++ String "." t))%string /\
    1 <= String.length l /\ all_chars EmailExtractor.local_class l = true /\
    1 <= String.length d /\ all_chars EmailExtractor.domain_class d = true /\
    2 <= String.length t /\ all_chars EmailExtractor.tld_class t = true.

(** The sum of the counts of a statistics mapping. *)
Definition total_count (stats : list (string * nat)) : nat :=
  fold_right (fun kn acc => snd kn + acc) 0 stats.

(** The addresses listed under a label, none when the label is not there. *)
Definition listed (k : string) (m : catmap) : list string :=
  match lookup k m with Some l => l | None => [] end.

(** No match of the scan reaches into the next one. *)
Definition Disjoint_spans (spans : list (nat * string)) : Prop :=
  StronglySorted
    (fun a b => fst a + String.length (snd a) <= fst b) spans.

(** The property of a list of addresses the extractor keeps. *)
Definition Clean (case_sensitive : bool) (l : list string) : Prop :=
  Forall Address l /\
  (case_sensitive = false -> Forall (fun x => lower x = x) l).

(** One turn of the first loop of [extract_from_files]. *)
Definition gather (h : Host) (st : EmailExtractor.t * list string) (file_path : string)
    : EmailExtractor.t * list string :=
  let '(self0, all_emails) := st in
  match EmailExtractor.extract_from_file h self0 file_path with
  | (self1, inr emails) => (self1, all_emails ++ emails)
  | (self1, inl _) => (self1, all_emails)
  end.

(** A string that does not begin with a space. *)
Definition headed (s : string) : Prop :=
  match s with
  | EmptyString => True
  | String c _ => is_space c = false
  end.

(** The address [e] has the label [k]. *)
Definition has_label (label : string -> option string) (k e : string) : bool :=
  match label e with
  | Some k' => String.eqb k' k
  | None => false
  end.

(** The labels of the map [categorize_by_type] returns. *)
Definition TYPE_LABELS : list string :=
  ["free"; "business"; "educational"; "government"; "other"].

(** The cache of [a] is within that of [b], in the same case mode. *)
Definition Within (a b : EmailExtractor.t) : Prop :=
  EmailExtractor.case_sensitive a = EmailExtractor.case_sensitive b /\
  forall x, In x (EmailExtractor._extracted_emails a) ->
            In x (EmailExtractor._extracted_emails b).

(** The extractor [final] holds in its cache what every readable file of
    [ps] yields. *)
Definition Covers (h : Host) (final : EmailExtractor.t) (ps : list string)
    : Prop :=
  forall p text x,
    In p ps -> path_exists h p = true -> read_text h p = inr text ->
    In x (snd (EmailExtractor.extract_from_text final text)) ->
    In x (EmailExtractor._extracted_emails final).

End Notions.

(* ================================================================== *)
(** ** Category maps *)

Module CatmapFacts.

Import PyStr EmailCategorizer Notions.

Lemma lookup_In (k : string) (m : catmap) (l : list string) :
  lookup k m = Some l -> In (k, l) m.
Proof.
  induction m as [|[k' l'] m IH]; simpl; [discriminate|].
  destruct (String.eqb_spec k' k) as [->|Hne]; intros H.
  - injection H as ->. now left.
  - right. now apply IH.
Qed.

Lemma all_values_cons (k : string) (l : list string) (m : catmap) :
  all_values ((k, l) :: m) = l ++ all_values m.
Proof. reflexivity. Qed.

Lemma all_values_append_to (k v : string) (m : catmap) :
  Permutation (all_values (append_to k v m)) (all_values m ++ [v]).
Proof.
  induction m as [|[k' l] m IH]; simpl.
  - reflexivity.
  - destruct (String.eqb k' k); rewrite !all_values_cons.
    + rewrite <- !app_assoc. apply Permutation_app_head, Permutation_app_comm.
    + rewrite <- app_assoc. now apply Permutation_app_head.
Qed.

Lemma In_append_to (k v : string) (m : catmap) (k0 : string) (l0 : list string) :
  In (k0, l0) (append_to k v m) ->
  In (k0, l0) m \/ (k0 = k /\ exists l, l0 = l ++ [v] /\ (In (k, l) m \/ l = [])).
Proof.
  induction m as [|[k' l] m IH]; simpl.
  - intros [H|[]]. injection H as <- <-. right. split; [easy|]. exists []. auto.
  - destruct (String.eqb_spec k' k) as [->|Hne]; simpl.
    + intros [H|H]; [|now auto].
      injection H as <- <-. right. split; [easy|]. exists l. auto.
    + intros [H|H]; [now auto|].
      destruct (IH H) as [H'|(-> & l1 & -> & [H' | ->])]; [now auto| |].
      * right. split; [easy|]. exists l1. auto.
      * right. split; [easy|]. exists []. auto.
Qed.

Lemma append_to_keys (k v : string) (m : catmap) (k0 : string) :
  In k0 (map fst (append_to k v m)) -> k0 = k \/ In k0 (map fst m).
Proof.
  intros H. apply in_map_iff in H. destruct H as ([k1 l1] & <- & H).
  destruct (In_append_to _ _ _ _ _ H) as [H'|(-> & _)]; [|now left].
  right. apply in_map_iff. now exists (k1, l1).
Qed.

Lemma append_to_nodup (k v : string) (m : catmap) :
  NoDup (map fst m) -> NoDup (map fst (append_to k v m)).
Proof.
  induction m as [|[k' l] m IH]; simpl; intros N.
  - constructor; [easy|constructor].
  - apply NoDup_cons_iff in N. destruct N as (Hk & N).
    destruct (String.eqb_spec k' k) as [->|Hne]; simpl.
    + now constructor.
    + constructor; [|now apply IH].
      intros H. apply append_to_keys in H. tauto.
Qed.

Lemma lookup_append_to_same (k v : string) (m : catmap) :
  exists l, lookup k (append_to k v m) = Some (l ++ [v]).
Proof.
  induction m as [|[k' l] m IH]; simpl.
  - rewrite String.eqb_refl. now exists [].
  - destruct (String.eqb k' k) eqn:E; simpl; rewrite E; [now exists l|exact IH].
Qed.

Lemma lookup_append_to_grows (k v k0 : string) (m : catmap) (l0 : list string) :
  lookup k0 m = Some l0 ->
  exists l1, lookup k0 (append_to k v m) = Some l1 /\ incl l0 l1.
Proof.
  induction m as [|[k' l] m IH]; simpl; [discriminate|].
  destruct (String.eqb k' k0) eqn:E0.
  - intros H. injection H as ->.
    destruct (String.eqb k' k); simpl; rewrite E0.
    + exists (l0 ++ [v]). split; [easy|]. now apply incl_appl, incl_refl.
    + exists l0. split; [easy|apply incl_refl].
  - intros H. destruct (String.eqb k' k); simpl; rewrite E0; [|now apply IH].
    exists l0. split; [easy|apply incl_refl].
Qed.

Section Bucket.

Variable label : string -> option string.

Lemma bucket_grows (emails : list string) (m : catmap) (k : string)
    (l : list string) :
  lookup k m = Some l ->
  exists l', lookup k (fold_left (bucket_step label) emails m) = Some l'
             /\ incl l l'.
Proof.
  revert m l. induction emails as [|e emails IH]; simpl; intros m l H.
  - exists l. split; [easy|apply incl_refl].
  - unfold bucket_step at 2. destruct (label e) as [k'|].
    + destruct (lookup_append_to_grows k' e k m l H) as (l1 & H1 & I1).
      destruct (IH _ _ H1) as (l2 & H2 & I2).
      exists l2. split; [easy|]. now apply incl_tran with l1.
    + now apply IH.
Qed.

(** Every address with a label is listed under it. *)
Lemma bucket_lists (emails : list string) (m : catmap) (e k : string) :
  In e emails -> label e = Some k ->
  exists l, lookup k (fold_left (bucket_step label) emails m) = Some l
            /\ In e l.
Proof.
  revert m. induction emails as [|e0 emails IH]; simpl; intros m [].
  - subst e0. intros Hk. unfold bucket_step at 2. rewrite Hk.
    destruct (lookup_append_to_same k e m) as (l & Hl).
    destruct (bucket_grows emails _ _ _ Hl) as (l' & Hl' & I).
    exists l'. split; [easy|]. apply I, in_or_app. right. now left.
  - intros Hk. now apply IH.
Qed.

Lemma bucket_permutation (emails : list string) (m : catmap) :
  Permutation (all_values (fold_left (bucket_step label) emails m))
              (all_values m ++ filter (labelled label) emails).
Proof.
  revert m. induction emails as [|e emails IH]; simpl; intros m.
  - now rewrite app_nil_r.
  - rewrite IH. unfold bucket_step, labelled at 2. destruct (label e) as [k|].
    + rewrite all_values_append_to, <- app_assoc. reflexivity.
    + reflexivity.
Qed.

Lemma append_to_sorted (m : catmap) (e k : string) :
  Sorted_by label m -> label e = Some k -> Sorted_by label (append_to k e m).
Proof.
  intros Hm Hk k0 l0 x Hin Hx.
  destruct (In_append_to _ _ _ _ _ Hin) as [H|(-> & l & -> & H)].
  - now apply (Hm k0 l0).
  - apply in_app_or in Hx. destruct Hx as [Hx | [ <- | [] ] ]; [|easy].
    destruct H as [H | ->]; [now apply (Hm k l)|destruct Hx].
Qed.

Lemma bucket_sorted (emails : list string) (m : catmap) :
  Sorted_by label m ->
  Sorted_by label (fold_left (bucket_step label) emails m).
Proof.
  revert m. induction emails as [|e emails IH]; simpl; intros m Hm; [easy|].
  apply IH. unfold bucket_step. destruct (label e) as [k|] eqn:E; [|easy].
  now apply append_to_sorted.
Qed.

Lemma bucket_nodup (emails : list string) (m : catmap) :
  NoDup (map fst m) ->
  NoDup (map fst (fold_left (bucket_step label) emails m)).
Proof.
  revert m. induction emails as [|e emails IH]; simpl; intros m Hm; [easy|].
  apply IH. unfold bucket_step. destruct (label e) as [k|]; [|easy].
  now apply append_to_nodup.
Qed.

Lemma sorted_exclusive (m : catmap) :
  Sorted_by label m ->
  forall e k1 k2 l1 l2,
    In (k1, l1) m -> In (k2, l2) m -> In e l1 -> In e l2 -> k1 = k2.
Proof.
  intros Hm e k1 k2 l1 l2 H1 H2 I1 I2.
  pose proof (Hm _ _ _ H1 I1) as E1. pose proof (Hm _ _ _ H2 I2) as E2.
  congruence.
Qed.

(** A pass whose initial lists are empty partitions the labelled part of
    its input. *)
Lemma bucket_partitions (emails : list string) (m : catmap) :
  NoDup (map fst m) -> all_values m = [] -> Sorted_by label m ->
  Partitions (fold_left (bucket_step label) emails m)
             (filter (labelled label) emails).
Proof.
  intros Hk Hv Hm. split; [now apply bucket_nodup|]. split.
  - rewrite bucket_permutation, Hv. reflexivity.
  - apply sorted_exclusive. now apply bucket_sorted.
Qed.

End Bucket.

Lemma fold_left_ext {A B : Type} (f g : A -> B -> A) (l : list B) (a : A) :
  (forall x y, f x y = g x y) -> fold_left f l a = fold_left g l a.
Proof.
  intros H. revert a. induction l as [|b l IH]; simpl; intros a; [easy|].
  now rewrite H, IH.
Qed.

Lemma filter_all {A : Type} (f : A -> bool) (l : list A) :
  (forall x, f x = true) -> filter f l = l.
Proof.
  intros H. induction l as [|a l IH]; simpl; [easy|]. now rewrite H, IH.
Qed.

Lemma sorted_nil (label : string -> option string) : Sorted_by label [].
Proof. intros k l e []. Qed.

(** A pass that gives every address a label partitions its input. *)
Lemma total_bucket_partitions (label : string -> string)
    (emails : list string) (m : catmap) :
  NoDup (map fst m) -> all_values m = [] ->
  Sorted_by (fun e => Some (label e)) m ->
  Partitions (fold_left (bucket_step (fun e => Some (label e))) emails m)
             emails.
Proof.
  intros Hk Hv Hm.
  pose proof (bucket_partitions (fun e => Some (label e)) emails m Hk Hv Hm)
    as P.
  now rewrite filter_all in P.
Qed.

Lemma nodup_nil_keys : NoDup (map fst ([] : catmap)).
Proof. constructor. Qed.

End CatmapFacts.

(* ================================================================== *)
(** ** Strings: [split], [lower] and the domain of an address *)

Module StrFacts.

Import PyStr EmailCategorizer Notions.

Lemma split_no_sep (sep : ascii) (s : string) :
  has_char sep s = false -> split sep s = [s].
Proof.
  induction s as [|c s IH]; simpl; [easy|].
  destruct (Ascii.eqb c sep); simpl; [discriminate|].
  intros H. now rewrite (IH H).
Qed.

Lemma split_at_sep (sep : ascii) (a r : string) :
  has_char sep a = false ->
  split sep (a ++ String sep r)%string = a :: split sep r.
Proof.
  induction a as [|c a IH]; simpl.
  - now rewrite Ascii.eqb_refl.
  - destruct (Ascii.eqb c sep); simpl; [discriminate|].
    intros H. now rewrite (IH H).
Qed.

Lemma split_nonempty (sep : ascii) (s : string) :
  exists part parts, split sep s = part :: parts.
Proof.
  destruct s as [|c s]; simpl; [now eauto|].
  destruct (Ascii.eqb c sep); [now eauto|].
  destruct (split sep s); now eauto.
Qed.

Lemma split_length (sep : ascii) (s : string) :
  has_char sep s = (2 <=? List.length (split sep s)).
Proof.
  induction s as [|c s IH]; simpl; [easy|].
  destruct (split_nonempty sep s) as (p & ps & E).
  rewrite E in *. destruct (Ascii.eqb c sep); simpl; [reflexivity|].
  rewrite IH. now destruct ps.
Qed.

Lemma split_second_none (sep : ascii) (s : string) :
  has_char sep s = false -> nth_error (split sep s) 1 = None.
Proof. intros H. now rewrite (split_no_sep _ _ H). Qed.

Lemma truthy_lower (s : string) : truthy (lower s) = truthy s.
Proof. now destruct s. Qed.

Lemma extract_domain_no_at (e : string) :
  has_char "@" e = false -> _extract_domain e = None.
Proof. intros H. unfold _extract_domain. now rewrite split_second_none. Qed.

Lemma extract_domain_none (e : string) :
  _extract_domain e = None -> has_char "@" e = false.
Proof.
  unfold _extract_domain. rewrite split_length.
  destruct (split "@" e) as [|p [|q ps]]; simpl; [easy|easy|discriminate].
Qed.

(** The addresses without a label under the domain strategy. *)
Lemma domain_label_none (e : string) :
  labelled domain_label e = false <->
  has_char "@" e = false \/ _extract_domain e = Some EmptyString.
Proof.
  unfold labelled, domain_label. split.
  - destruct (_extract_domain e) as [d|] eqn:E.
    + destruct d as [|c d]; [now right|discriminate].
    + intros _. left. now apply extract_domain_none.
  - intros [H|H].
    + now rewrite extract_domain_no_at.
    + now rewrite H.
Qed.

Lemma extract_domain_has_at (e d : string) :
  _extract_domain e = Some d -> has_char "@" e = true.
Proof.
  intros H. destruct (has_char "@" e) eqn:E; [easy|].
  now rewrite extract_domain_no_at in H.
Qed.

(** The domain is what stands between the first [@] and the next one, or
    the end of the address when there is no other. *)
Lemma extract_domain_last (a b : string) :
  has_char "@" a = false -> has_char "@" b = false ->
  _extract_domain (a ++ String "@" b)%string = Some (lower b).
Proof.
  intros Ha Hb. unfold _extract_domain.
  now rewrite split_at_sep, split_no_sep.
Qed.

Lemma extract_domain_inner (a b c : string) :
  has_char "@" a = false -> has_char "@" b = false ->
  _extract_domain (a ++ String "@" (b ++ String "@" c))%string
  = Some (lower b).
Proof.
  intros Ha Hb. unfold _extract_domain.
  now rewrite split_at_sep, split_at_sep.
Qed.

Lemma mem_In (x : string) (xs : list string) : mem x xs = true <-> In x xs.
Proof.
  unfold mem. rewrite existsb_exists. split.
  - intros (y & Hy & E). apply String.eqb_eq in E. now subst.
  - intros H. exists x. split; [easy|apply String.eqb_refl].
Qed.

End StrFacts.

(* ================================================================== *)
(** ** The categorization strategies *)

Module CategorizerFacts.

Import PyStr EmailCategorizer Notions CatmapFacts StrFacts.

Lemma domain_step_bucket (m : catmap) (e : string) :
  domain_step m e = bucket_step domain_label m e.
Proof.
  unfold domain_step, bucket_step, domain_label.
  destruct (_extract_domain e) as [d|]; [|easy]. now destruct (truthy d).
Qed.

Lemma type_step_bucket (m : catmap) (e : string) :
  type_step m e = bucket_step (fun e => Some (type_label e)) m e.
Proof.
  unfold type_step, bucket_step, type_label.
  destruct (_extract_domain e) as [d|]; [|easy].
  repeat match goal with
         | |- context [if ?b then _ else _] => destruct b; try reflexivity
         end.
Qed.

Lemma categorize_by_domain_bucket (emails : list string) :
  categorize_by_domain emails = fold_left (bucket_step domain_label) emails [].
Proof. apply fold_left_ext, domain_step_bucket. Qed.

Lemma categorize_by_type_bucket (emails : list string) :
  categorize_by_type emails
  = fold_left (bucket_step (fun e => Some (type_label e))) emails type_init.
Proof. apply fold_left_ext, type_step_bucket. Qed.

Lemma type_init_sorted (label : string -> option string) :
  Sorted_by label type_init.
Proof.
  intros k l e Hin He. simpl in Hin.
  repeat (destruct Hin as [Hin|Hin]; [injection Hin as <- <-; destruct He|]).
  destruct Hin.
Qed.

Lemma type_init_nodup : NoDup (map fst type_init).
Proof.
  simpl. repeat (constructor; [simpl; intuition discriminate|]). constructor.
Qed.

Lemma type_partitions (emails : list string) :
  Partitions (categorize_by_type emails) emails.
Proof.
  rewrite categorize_by_type_bucket.
  apply total_bucket_partitions;
    [apply type_init_nodup|reflexivity|apply type_init_sorted].
Qed.

Lemma keywords_partitions (emails : list string)
    (keywords : list (string * list string)) :
  Partitions (categorize_by_keywords emails keywords) emails.
Proof.
  unfold categorize_by_keywords.
  rewrite (fold_left_ext _
    (bucket_step (fun e =>
       Some (or_uncategorized (keyword_scan (lower e) keywords))))).
  - apply total_bucket_partitions;
      [apply nodup_nil_keys|reflexivity|apply sorted_nil].
  - intros m e. unfold keywords_step, bucket_step.
    now destruct (keyword_scan (lower e) keywords).
Qed.

Lemma custom_partitions (emails : list string) (rules : list (string * rule)) :
  Partitions (categorize_by_custom_rule emails rules) emails.
Proof.
  unfold categorize_by_custom_rule.
  rewrite (fold_left_ext _
    (bucket_step (fun e => Some (or_uncategorized (rule_scan e rules))))).
  - apply total_bucket_partitions;
      [apply nodup_nil_keys|reflexivity|apply sorted_nil].
  - intros m e. unfold custom_step, bucket_step.
    now destruct (rule_scan e rules).
Qed.

Lemma pattern_partitions (h : Host) (emails : list string)
    (patterns : list (string * string)) (m : catmap) :
  categorize_by_pattern h emails patterns = inr m -> Partitions m emails.
Proof.
  unfold categorize_by_pattern.
  destruct (compile_all h patterns) as [cs|]; [|discriminate].
  intros H. injection H as <-.
  rewrite (fold_left_ext _
    (bucket_step (fun e => Some (or_uncategorized (pattern_scan h e cs))))).
  - apply total_bucket_partitions;
      [apply nodup_nil_keys|reflexivity|apply sorted_nil].
  - intros m e. unfold pattern_step, bucket_step.
    now destruct (pattern_scan h e cs).
Qed.

(** The pattern strategy returns a map as soon as every pattern compiles. *)
Lemma pattern_returns (h : Host) (emails : list string)
    (patterns : list (string * string)) :
  (forall c p, In (c, p) patterns -> re_compile h p <> None) ->
  exists m, categorize_by_pattern h emails patterns = inr m.
Proof.
  intros H. unfold categorize_by_pattern.
  assert (exists cs, compile_all h patterns = Some cs) as (cs & ->).
  { induction patterns as [|[c p] ps IH]; simpl; [now eexists|].
    destruct (re_compile h p) as [r|] eqn:E.
    - destruct IH as (cs & ->); [|now eexists].
      intros c' p' Hin. apply (H c' p'). now right.
    - exfalso. apply (H c p); [now left|exact E]. }
  now eexists.
Qed.

Lemma domain_partitions (emails : list string) :
  Partitions (categorize_by_domain emails)
             (filter (labelled domain_label) emails).
Proof.
  rewrite categorize_by_domain_bucket.
  apply bucket_partitions;
    [apply nodup_nil_keys|reflexivity|apply sorted_nil].
Qed.

(** Under the type strategy an address is listed under its label and
    nowhere else. *)
Lemma type_lists (emails : list string) (e : string) :
  In e emails ->
  exists l, lookup (type_label e) (categorize_by_type emails) = Some l
            /\ In e l.
Proof.
  intros H. rewrite categorize_by_type_bucket.
  now apply (bucket_lists (fun e => Some (type_label e))).
Qed.

Lemma type_listed_label (emails : list string) (e k : string)
    (l : list string) :
  lookup k (categorize_by_type emails) = Some l -> In e l -> type_label e = k.
Proof.
  intros Hl He. apply lookup_In in Hl.
  pose proof (bucket_sorted (fun e => Some (type_label e)) emails type_init
                (type_init_sorted _)) as S.
  rewrite <- categorize_by_type_bucket in S.
  specialize (S _ _ _ Hl He). now injection S.
Qed.

Lemma edu_suffix_facts (d : string) :
  existsb (endswith d) EDUCATIONAL_DOMAINS = true ->
  truthy d = true /\ mem d FREE_EMAIL_DOMAINS = false.
Proof.
  intros H. split.
  - destruct d; [vm_compute in H; discriminate|reflexivity].
  - destruct (mem d FREE_EMAIL_DOMAINS) eqn:E; [|reflexivity].
    apply mem_In in E. simpl in E.
    repeat (destruct E as [<-|E]; [vm_compute in H; discriminate|]).
    destruct E.
Qed.

Lemma edu_label (e d : string) :
  _extract_domain e = Some d ->
  existsb (endswith d) EDUCATIONAL_DOMAINS = true ->
  type_label e = "educational".
Proof.
  intros Hd He. unfold type_label. rewrite Hd.
  destruct (edu_suffix_facts d He) as (-> & ->). simpl negb. cbv iota.
  now rewrite He.
Qed.

Lemma multi_label_not_other (e d : string) :
  _extract_domain e = Some d ->
  2 <= List.length (split "." d) ->
  type_label e <> "other".
Proof.
  intros Hd Hn. unfold type_label. rewrite Hd.
  assert (truthy d = true) as -> by (destruct d; [simpl in Hn; lia|easy]).
  simpl negb. cbv iota.
  destruct (mem d FREE_EMAIL_DOMAINS) eqn:F; [discriminate|].
  destruct (existsb (endswith d) EDUCATIONAL_DOMAINS); [discriminate|].
  destruct (endswith d ".gov" || String.eqb d "gov.uk"
            || endswith d ".gov.uk"); [discriminate|].
  unfold _is_business_domain. rewrite F.
  apply Nat.leb_le in Hn. rewrite Hn, orb_true_r. discriminate.
Qed.

End CategorizerFacts.

(* ================================================================== *)
(** ** Properties of the categorizer *)

Module CategorizerProperties.

Import PyStr EmailCategorizer Notions CatmapFacts StrFacts CategorizerFacts.

(** C1, as stated, fails for the domain strategy: the address [user@]
    contains an [@] and is nevertheless in no category of the map returned
    for the list that holds just this address. *)
Lemma domain_strategy_omits_empty_domain :
  In "user@" ["user@"] /\
  has_char "@" "user@" = true /\
  ~ In "user@" (all_values (categorize_by_domain ["user@"])).
Proof. repeat split; [now left|]. vm_compute. now intros []. Qed.

(** C1, amended.  Under the type, keyword, pattern and custom strategies the
    category lists of the returned map are together the input list up to
    order (nothing dropped, nothing repeated), no label occurs twice and no
    address is listed under two labels; the pattern strategy returns a map
    whenever every pattern compiles.  The domain strategy does the same for
    the part of the input it keeps; what it leaves out are the addresses
    without [@] and those whose domain, as [_extract_domain] finds it, is
    empty. *)
Theorem categories_partition_input (h : Host) (emails : list string)
    (keywords : list (string * list string))
    (patterns : list (string * string))
    (rules : list (string * rule)) :
  Partitions (categorize_by_type emails) emails /\
  Partitions (categorize_by_keywords emails keywords) emails /\
  (forall m, categorize_by_pattern h emails patterns = inr m ->
             Partitions m emails) /\
  ((forall c p, In (c, p) patterns -> re_compile h p <> None) ->
   exists m, categorize_by_pattern h emails patterns = inr m) /\
  Partitions (categorize_by_custom_rule emails rules) emails /\
  Partitions (categorize_by_domain emails)
             (filter (labelled domain_label) emails) /\
  (forall e, labelled domain_label e = false <->
             has_char "@" e = false \/ _extract_domain e = Some EmptyString).
Proof.
  split; [apply type_partitions|].
  split; [apply keywords_partitions|].
  split; [apply pattern_partitions|].
  split; [apply pattern_returns|].
  split; [apply custom_partitions|].
  split; [apply domain_partitions|apply domain_label_none].
Qed.

Lemma categories_partition_input_witness :
  let emails := ["sales@co.com"; "x"; "u@"; "sales@co.com"] in
  exists m,
    categorize_by_pattern bare_host emails [("s", "sales")] = inr m /\
    Partitions m emails.
Proof.
  intros emails.
  destruct (categories_partition_input bare_host emails []
              [("s", "sales")] []) as (_ & _ & Hp & Hr & _).
  destruct Hr as (m & Hm).
  - intros c p _. simpl. discriminate.
  - exists m. split; [exact Hm|exact (Hp m Hm)].
Defined.

(** C3.  An address whose domain ends with one of the educational suffixes
    is listed under [educational] and not under [business], whatever the
    number of labels of the domain; [student@school.ac.uk] is such an
    address. *)
Theorem educational_wins_over_business :
  (forall emails e d,
      In e emails ->
      _extract_domain e = Some d ->
      existsb (endswith d) EDUCATIONAL_DOMAINS = true ->
      (exists l, lookup "educational" (categorize_by_type emails) = Some l
                 /\ In e l) /\
      (forall l, lookup "business" (categorize_by_type emails) = Some l ->
                 ~ In e l)) /\
  categorize_by_type ["student@school.ac.uk"]
  = [ ("free", []); ("business", []);
      ("educational", ["student@school.ac.uk"]);
      ("government", []); ("other", []) ].
Proof.
  split; [|reflexivity].
  intros emails e d Hin Hd He.
  pose proof (edu_label e d Hd He) as L. split.
  - rewrite <- L. now apply type_lists.
  - intros l Hl Hel. pose proof (type_listed_label _ _ _ _ Hl Hel) as L'.
    rewrite L in L'. discriminate.
Qed.

Lemma educational_wins_over_business_witness :
  exists l,
    lookup "educational"
      (categorize_by_type ["a@gmail.com"; "student@school.ac.uk"]) = Some l
    /\ In "student@school.ac.uk" l.
Proof.
  apply (proj1 educational_wins_over_business
           ["a@gmail.com"; "student@school.ac.uk"] "student@school.ac.uk"
           "school.ac.uk").
  - simpl. auto.
  - reflexivity.
  - reflexivity.
Defined.

(** C6, as stated, fails where an address has a second [@]: in [a@b@c] the
    substring after the first [@] is [b@c], and the map has no such label;
    the address is listed under [b]. *)
Lemma domain_label_stops_at_second_at :
  has_char "@" "a@b@c" = true /\
  after_first_at "a@b@c" = Some "b@c" /\
  lookup (lower "b@c") (categorize_by_domain ["a@b@c"]) = None /\
  categorize_by_domain ["a@b@c"] = [("b", ["a@b@c"])].
Proof. repeat split. Qed.

(** C6, amended.  The label of an address is the text between its first
    [@] and the next [@] (or the end of the address), lower-cased.  An
    address of the input whose label is not empty is listed under that
    label and under no other; an address without [@], or with an empty
    label, is in no list of the map. *)
Theorem domain_strategy_labels (emails : list string) (e : string) :
  (forall d, In e emails -> domain_label e = Some d ->
     exists l, lookup d (categorize_by_domain emails) = Some l /\ In e l /\
       forall k l', lookup k (categorize_by_domain emails) = Some l' ->
                    In e l' -> k = d) /\
  (domain_label e = None ->
     ~ In e (all_values (categorize_by_domain emails))) /\
  (has_char "@" e = false -> domain_label e = None) /\
  (forall a b, has_char "@" a = false -> has_char "@" b = false ->
     let label := if truthy b then Some (lower b) else None in
     domain_label (a ++ String "@" b)%string = label /\
     forall c, domain_label (a ++ String "@" (b ++ String "@" c))%string
               = label).
Proof.
  destruct (domain_partitions emails) as (_ & P & X).
  split; [|split; [|split]].
  - intros d Hin Hd.
    destruct (bucket_lists domain_label emails [] e d Hin Hd) as (l & Hl & Hel).
    rewrite <- categorize_by_domain_bucket in Hl.
    exists l. split; [easy|]. split; [easy|].
    intros k l' Hl' Hel'.
    exact (X e k d l' l (lookup_In _ _ _ Hl') (lookup_In _ _ _ Hl) Hel' Hel).
  - intros Hn Hin. apply (Permutation_in _ P) in Hin.
    apply filter_In in Hin. destruct Hin as (_ & L).
    unfold labelled in L. now rewrite Hn in L.
  - intros H. unfold domain_label. now rewrite extract_domain_no_at.
  - intros a b Ha Hb label. unfold domain_label.
    rewrite extract_domain_last by easy. split.
    + now rewrite truthy_lower.
    + intros c. rewrite extract_domain_inner by easy. now rewrite truthy_lower.
Qed.

Lemma domain_strategy_labels_witness :
  (exists l, lookup "b.org" (categorize_by_domain ["x"; "U@B.org"]) = Some l
             /\ In "U@B.org" l) /\
  ~ In "x" (all_values (categorize_by_domain ["x"; "U@B.org"])) /\
  domain_label "u@B@c" = Some "b".
Proof.
  split; [|split].
  - destruct (proj1 (domain_strategy_labels ["x"; "U@B.org"] "U@B.org")
                "b.org") as (l & Hl & Hin & _).
    + simpl. auto.
    + reflexivity.
    + now exists l.
  - apply (proj1 (proj2 (domain_strategy_labels ["x"; "U@B.org"] "x"))).
    reflexivity.
  - destruct (domain_strategy_labels [] "") as (_ & _ & _ & H).
    destruct (H "u" "B" eq_refl eq_refl) as (_ & H'). exact (H' "c").
Defined.

(** C8.  An address whose domain has at least two dot-separated parts is
    never listed under [other]: the addresses listed there have no domain
    or a domain of a single part.  The domain of an address is the one
    [_extract_domain] finds, and only an address with an [@] has one. *)
Theorem multi_label_domain_never_other (emails : list string) (e d : string) :
  _extract_domain e = Some d ->
  2 <= List.length (split "." d) ->
  has_char "@" e = true /\
  (forall l, lookup "other" (categorize_by_type emails) = Some l -> ~ In e l) /\
  (In e emails ->
   exists k l, k <> "other" /\
     lookup k (categorize_by_type emails) = Some l /\ In e l).
Proof.
  intros Hd Hn. pose proof (multi_label_not_other e d Hd Hn) as L.
  split; [now apply extract_domain_has_at with d|]. split.
  - intros l Hl Hel. exact (L (type_listed_label _ _ _ _ Hl Hel)).
  - intros Hin. destruct (type_lists emails e Hin) as (l & Hl & Hel).
    now exists (type_label e), l.
Qed.

Lemma multi_label_domain_never_other_witness :
  lookup "other" (categorize_by_type ["k"; "a@shop.example"]) = Some ["k"] /\
  ~ In "a@shop.example" ["k"] /\
  exists k l, k <> "other" /\
    lookup k (categorize_by_type ["k"; "a@shop.example"]) = Some l /\
    In "a@shop.example" l.
Proof.
  destruct (multi_label_domain_never_other ["k"; "a@shop.example"]
              "a@shop.example" "shop.example") as (_ & N & L).
  - reflexivity.
  - simpl. lia.
  - split; [reflexivity|]. split; [apply N; reflexivity|].
    apply L. simpl. auto.
Defined.

End CategorizerProperties.

(* ================================================================== *)
(** ** Properties of the engine *)

Module EngineProperties.

Import EmailCategorizer EmailEngine Notions.

(** C5.  With nothing extracted, [categorize] raises whatever the method
    and the options are, and the engine is as it was: the extracted list
    and the category map are those from before the call.  A new engine and
    an engine just reset are in that situation. *)
Theorem categorize_requires_extraction (h : Host) (method : string)
    (kw : kwargs) :
  (forall self, emails self = [] ->
     categorize h self method kw = (self, inl no_emails_error)) /\
  (forall case_sensitive,
     categorize h (init case_sensitive) method kw
     = (init case_sensitive, inl no_emails_error)) /\
  (forall self,
     categorize h (reset self) method kw = (reset self, inl no_emails_error)).
Proof.
  assert (forall self, emails self = [] ->
            categorize h self method kw = (self, inl no_emails_error)) as H.
  { intros self E. unfold categorize. now rewrite E. }
  split; [exact H|]. split; intros; now apply H.
Qed.

Lemma categorize_requires_extraction_witness :
  categorize bare_host
    {| extractor := EmailExtractor.init true;
       emails := [];
       categorized := [("free", ["a@gmail.com"])] |}
    "domain" no_kwargs
  = ({| extractor := EmailExtractor.init true;
        emails := [];
        categorized := [("free", ["a@gmail.com"])] |},
     inl no_emails_error).
Proof.
  apply (proj1 (categorize_requires_extraction bare_host "domain" no_kwargs)).
  reflexivity.
Defined.

(** C9.  With something extracted, the methods [keywords], [pattern] and
    [custom] raise the error of the missing option when the option is an
    empty mapping just as when it is not given, and the engine is as it
    was. *)
Theorem empty_option_is_missing_option (h : Host) (self : t)
    (kw_empty kw_absent : kwargs) :
  emails self <> [] ->
  (keywords kw_empty = Some [] -> keywords kw_absent = None ->
   let failure :=
     (self,
      inl (ValueError "'keywords' argument required for keywords method")) in
   categorize h self "keywords" kw_empty = failure /\
   categorize h self "keywords" kw_absent = failure) /\
  (patterns kw_empty = Some [] -> patterns kw_absent = None ->
   let failure :=
     (self,
      inl (ValueError "'patterns' argument required for pattern method")) in
   categorize h self "pattern" kw_empty = failure /\
   categorize h self "pattern" kw_absent = failure) /\
  (rules kw_empty = Some [] -> rules kw_absent = None ->
   let failure :=
     (self, inl (ValueError "'rules' argument required for custom method")) in
   categorize h self "custom" kw_empty = failure /\
   categorize h self "custom" kw_absent = failure).
Proof.
  intros Hne. unfold categorize.
  destruct (emails self) as [|e es]; [now destruct Hne|].
  repeat split; simpl; rewrite ?H, ?H0; reflexivity.
Qed.

Lemma empty_option_is_missing_option_witness :
  let self :=
    {| extractor := EmailExtractor.init false;
       emails := ["a@b.org"];
       categorized := [] |} in
  categorize bare_host self "keywords"
    {| keywords := Some []; patterns := Some []; rules := Some [] |}
  = categorize bare_host self "keywords" no_kwargs.
Proof.
  intros self.
  destruct (empty_option_is_missing_option bare_host self
              {| keywords := Some []; patterns := Some []; rules := Some [] |}
              no_kwargs) as (K & _).
  - simpl. discriminate.
  - destruct K as (K1 & K2); [reflexivity|reflexivity|].
    exact (eq_trans K1 (eq_sym K2)).
Defined.

Lemma extract_frame (h : Host) (self self' : t) (src : source)
    (source_type : string) (r : list string) :
  extract h self src source_type = (self', inr r) ->
  emails self' = r /\ categorized self' = categorized self.
Proof.
  unfold extract.
  destruct (String.eqb source_type "text").
  { destruct (EmailExtractor.extract_from_text _ _) as [x r0].
    intros H. injection H as <- <-. now split. }
  destruct (String.eqb source_type "file").
  { destruct src as [p|l]; [|discriminate].
    destruct (EmailExtractor.extract_from_file _ _ _) as [x [e|r0]];
      [discriminate|].
    intros H. injection H as <- <-. now split. }
  destruct (String.eqb source_type "files").
  { destruct src as [p|l]; [discriminate|].
    destruct (EmailExtractor.extract_from_files _ _ _) as [x r0].
    intros H. injection H as <- <-. now split. }
  destruct (String.eqb source_type "directory"); [|discriminate].
  destruct src as [p|l]; [|discriminate].
  destruct (EmailExtractor.extract_from_directory _ _ _) as [x [e|r0]];
    [discriminate|].
  intros H. injection H as <- <-. now split.
Qed.

Lemma categorize_frame (h : Host) (self self' : t) (method : string)
    (kw : kwargs) (m : catmap) :
  categorize h self method kw = (self', inr m) ->
  categorized self' = m /\ emails self' = emails self.
Proof.
  unfold categorize.
  destruct (emails self) as [|e es] eqn:E; [discriminate|].
  repeat match goal with
         | |- context [if ?b then _ else _] => destruct b
         | |- context [match categorize_by_pattern ?a ?b ?c with _ => _ end] =>
             destruct (categorize_by_pattern a b c)
         end;
    try discriminate; intros H; injection H as <- <-; now split.
Qed.

(** C10.  An [extract] call that returns replaces the extracted list by
    what it returns and leaves the category map alone.  So after [extract],
    [categorize], [extract] the engine still holds the map the [categorize]
    call made from the first extraction, next to the list of the second. *)
Theorem extract_keeps_categorized (h : Host) :
  (forall self self' src source_type r,
     extract h self src source_type = (self', inr r) ->
     emails self' = r /\ categorized self' = categorized self) /\
  (forall e0 e1 e2 e3 src1 ty1 r1 method kw m src2 ty2 r2,
     extract h e0 src1 ty1 = (e1, inr r1) ->
     categorize h e1 method kw = (e2, inr m) ->
     extract h e2 src2 ty2 = (e3, inr r2) ->
     emails e1 = r1 /\ categorized e2 = m /\
     emails e3 = r2 /\ categorized e3 = m).
Proof.
  split; [intros; now apply extract_frame with h src source_type|].
  intros e0 e1 e2 e3 src1 ty1 r1 method kw m src2 ty2 r2 H1 H2 H3.
  destruct (extract_frame _ _ _ _ _ _ H1) as (A1 & _).
  destruct (categorize_frame _ _ _ _ _ _ H2) as (B1 & _).
  destruct (extract_frame _ _ _ _ _ _ H3) as (C1 & C2).
  rewrite C2, B1. now repeat split.
Qed.

Lemma extract_keeps_categorized_witness :
  let e1 :=
    fst (extract bare_host (init false) (Str "write to A@gmail.com") "text") in
  let e2 := fst (categorize bare_host e1 "type" no_kwargs) in
  let e3 := fst (extract bare_host e2 (Str "or to b@x.org") "text") in
  emails e3 = ["b@x.org"] /\
  categorized e3 = categorize_by_type ["a@gmail.com"].
Proof.
  intros e1 e2 e3.
  destruct (proj2 (extract_keeps_categorized bare_host)
              (init false) e1 e2 e3
              (Str "write to A@gmail.com") "text" ["a@gmail.com"]
              "type" no_kwargs (categorize_by_type ["a@gmail.com"])
              (Str "or to b@x.org") "text" ["b@x.org"])
    as (_ & _ & A & B); [reflexivity|reflexivity|reflexivity|].
  split; [exact A|exact B].
Defined.

End EngineProperties.

(* ================================================================== *)
(** ** The matcher *)

Module ReFacts.

Import PyStr Notions.

Lemma length_append (a b : string) :
  String.length (a ++ b)%string = String.length a + String.length b.
Proof. induction a as [|c a IH]; simpl; [easy|]. now rewrite IH. Qed.

Lemma append_assoc (a b c : string) :
  ((a ++ b) ++ c)%string = (a ++ (b ++ c))%string.
Proof. induction a as [|d a IH]; simpl; [easy|]. now rewrite IH. Qed.

Lemma has_char_append (c : ascii) (a b : string) :
  has_char c (a ++ b)%string = has_char c a || has_char c b.
Proof.
  induction a as [|d a IH]; simpl; [easy|]. now rewrite IH, orb_assoc.
Qed.

Lemma last_char_all (f : ascii -> bool) (w : string) (prev : option ascii) :
  all_chars f w = true -> 1 <= String.length w ->
  exists c, last_char prev w = Some c /\ f c = true.
Proof.
  revert prev. induction w as [|c w IH]; simpl; intros prev Ha Hn; [lia|].
  apply andb_true_iff in Ha. destruct Ha as (Hc & Ha).
  destruct w as [|c' w'].
  - now exists c.
  - apply IH; [exact Ha|simpl; lia].
Qed.

Section Rep.

Variables (cls : ascii -> bool) (min : nat).
Variable k : option ascii -> string -> option nat.

(** A repetition that succeeds has read some [w] of the class, long
    enough, after which the rest of the pattern succeeded. *)
Lemma rep_sound (s : string) :
  forall n prev r,
    Re.rep cls min k n prev s = Some r ->
    exists w s' r',
      s = (w ++ s')%string /\ all_chars cls w = true /\
      min <= n + String.length w /\
      k (last_char prev w) s' = Some r' /\ r = String.length w + r'.
Proof.
  assert (forall n prev r s0,
            (if min <=? n then k prev s0 else None) = Some r ->
            exists w s' r',
              s0 = (w ++ s')%string /\ all_chars cls w = true /\
              min <= n + String.length w /\
              k (last_char prev w) s' = Some r' /\ r = String.length w + r')
    as Stop.
  { intros n prev r s0 H. destruct (Nat.leb_spec min n); [|discriminate].
    exists EmptyString, s0, r. simpl. repeat split; [lia|exact H]. }
  induction s as [|d s IH]; intros n prev r; simpl; [apply Stop|].
  destruct (cls d) eqn:Hd; [|apply Stop].
  destruct (Re.rep cls min k (S n) (Some d) s) as [r0|] eqn:E; [|apply Stop].
  intros H. injection H as <-.
  destruct (IH _ _ _ E) as (w & s' & r' & -> & Hw & Hn & Hk & ->).
  exists (String d w), s', r'. simpl. rewrite Hd, Hw.
  repeat split; [lia|exact Hk].
Qed.

(** Backtracking finds a split whenever there is one. *)
Lemma rep_complete (w s' : string) :
  forall n prev,
    all_chars cls w = true ->
    min <= n + String.length w ->
    k (last_char prev w) s' <> None ->
    Re.rep cls min k n prev (w ++ s')%string <> None.
Proof.
  induction w as [|c w IH]; simpl; intros n prev Hw Hn Hk.
  - assert ((if min <=? n then k prev s' else None) <> None) as Stop.
    { destruct (Nat.leb_spec min n); [exact Hk|lia]. }
    destruct s' as [|d s']; simpl; [exact Stop|].
    destruct (cls d); [|exact Stop].
    destruct (Re.rep cls min k (S n) (Some d) s'); [discriminate|exact Stop].
  - apply andb_true_iff in Hw. destruct Hw as (Hc & Hw). rewrite Hc.
    specialize (IH (S n) (Some c) Hw).
    destruct (Re.rep cls min k (S n) (Some c) (w ++ s')%string);
      [discriminate|].
    exfalso. apply IH; [lia|exact Hk|reflexivity].
Qed.

(** What a repetition reports is at most what is left of the string when
    this is so of the rest of the pattern. *)
Lemma rep_bound (s : string) :
  (forall prev s0 r, k prev s0 = Some r -> r <= String.length s0) ->
  forall n prev r,
    Re.rep cls min k n prev s = Some r -> r <= String.length s.
Proof.
  intros Hk n prev r H.
  destruct (rep_sound _ _ _ _ H) as (w & s' & r' & -> & _ & _ & Hr & ->).
  rewrite length_append. apply Hk in Hr. lia.
Qed.

End Rep.

Lemma match_here_bound (full : bool) (p : Re.pattern) :
  forall prev s n,
    Re.match_here full p prev s = Some n -> n <= String.length s.
Proof.
  induction p as [|[|c|cls min] p IH]; simpl; intros prev s n.
  - destruct full; [destruct s|]; intros H; try discriminate;
      injection H as <-; lia.
  - destruct (Re.is_boundary prev (Re.peek s)); [apply IH|discriminate].
  - destruct s as [|d s]; [discriminate|].
    destruct (Ascii.eqb d c); [|discriminate].
    destruct (Re.match_here full p (Some d) s) as [r|] eqn:E; [|discriminate].
    simpl. intros H. injection H as <-. apply IH in E. simpl. lia.
  - apply rep_bound. exact IH.
Qed.

(** [fullmatch] succeeds on the strings that match the pattern, and on no
    other. *)
Lemma match_full_sound (p : Re.pattern) :
  forall prev s n,
    Re.match_here true p prev s = Some n ->
    Matches p prev s /\ n = String.length s.
Proof.
  induction p as [|[|c|cls min] p IH]; simpl; intros prev s n.
  - destruct s; [|discriminate]. intros H. injection H as <-.
    split; [constructor|reflexivity].
  - destruct (Re.is_boundary prev (Re.peek s)) eqn:B; [|discriminate].
    intros H. destruct (IH _ _ _ H). split; [now constructor|easy].
  - destruct s as [|d s]; [discriminate|].
    destruct (Ascii.eqb_spec d c) as [->|]; [|discriminate].
    destruct (Re.match_here true p (Some c) s) as [r|] eqn:E; [|discriminate].
    simpl. intros H. injection H as <-. destruct (IH _ _ _ E) as (M & ->).
    split; [now constructor|reflexivity].
  - intros H.
    destruct (rep_sound _ _ _ _ _ _ _ H) as (w & s' & r' & -> & Hw & Hn & Hr & ->).
    destruct (IH _ _ _ Hr) as (M & ->).
    split; [now constructor|now rewrite length_append].
Qed.

Lemma match_full_complete (p : Re.pattern) (prev : option ascii) (s : string) :
  Matches p prev s -> Re.match_here true p prev s <> None.
Proof.
  induction 1 as [prev|p prev s B M IH|c p prev s M IH
                 |cls min p prev w s Hw Hn M IH]; simpl.
  - discriminate.
  - now rewrite B.
  - rewrite Ascii.eqb_refl.
    destruct (Re.match_here true p (Some c) s); [discriminate|easy].
  - now apply rep_complete.
Qed.

Lemma fullmatch_iff (p : Re.pattern) (s : string) :
  Re.fullmatch p s = true <-> Matches p None s.
Proof.
  unfold Re.fullmatch. split.
  - destruct (Re.match_here true p None s) as [n|] eqn:E; [|discriminate].
    intros _. now destruct (match_full_sound _ _ _ _ E).
  - intros M. apply match_full_complete in M.
    now destruct (Re.match_here true p None s).
Qed.

End ReFacts.

(* ================================================================== *)
(** ** Properties of the extractor: validation *)

Module ValidationProperties.

Import PyStr Notions ReFacts EmailExtractor.

Lemma append_empty_r (s : string) : (s ++ EmptyString)%string = s.
Proof. induction s as [|c s IH]; simpl; [easy|]. now rewrite IH. Qed.

Lemma boundary_at_start (next : option ascii) :
  Re.is_boundary None next = Re.word_at next.
Proof. reflexivity. Qed.

Lemma boundary_at_end (prev : option ascii) :
  Re.is_boundary prev None = Re.word_at prev.
Proof. unfold Re.is_boundary. simpl. apply xorb_false_r. Qed.

(** The strings the pattern of the code matches as a whole. *)
Lemma email_pattern_matches (s : string) :
  Matches EMAIL_PATTERN None s <->
  exists l d t : string,
    s = (l ++ String "@" (d ++ String "." t))%string /\
    1 <= String.length l /\ all_chars local_class l = true /\
    1 <= String.length d /\ all_chars domain_class d = true /\
    2 <= String.length t /\ all_chars tld_class t = true /\
    Re.word_at (Re.peek s) = true /\
    Re.word_at (last_char (Some "."%char) t) = true.
Proof.
  unfold EMAIL_PATTERN. split.
  - intros M.
    inversion M as [|? ? ? B1 M1| |]; subst; clear M.
    inversion M1 as [| | |? ? ? ? l s1 Hl Nl M2]; subst; clear M1.
    inversion M2 as [| |? ? ? s2 M3|]; subst; clear M2.
    inversion M3 as [| | |? ? ? ? d s3 Hd Nd M4]; subst; clear M3.
    inversion M4 as [| |? ? ? s4 M5|]; subst; clear M4.
    inversion M5 as [| | |? ? ? ? t s5 Ht Nt M6]; subst; clear M5.
    inversion M6 as [|? ? ? B2 M7| |]; subst; clear M6.
    inversion M7; subst; clear M7.
    rewrite append_empty_r in *. rewrite boundary_at_start in B1.
    rewrite boundary_at_end in B2.
    exists l, d, t. now repeat split.
  - intros (l & d & t & -> & Nl & Hl & Nd & Hd & Nt & Ht & B1 & B2).
    constructor; [now rewrite boundary_at_start|].
    constructor; [exact Hl|exact Nl|].
    constructor. constructor; [exact Hd|exact Nd|].
    constructor. rewrite <- (append_empty_r t).
    constructor; [exact Ht|exact Nt|].
    constructor; [now rewrite boundary_at_end|constructor].
Qed.

Lemma alpha_is_word (c : ascii) : is_alpha c = true -> is_word c = true.
Proof. intros H. unfold is_word, is_alnum. now rewrite H. Qed.

Lemma alpha_is_tld (t : string) :
  all_chars is_alpha t = true -> all_chars tld_class t = true.
Proof.
  induction t as [|c t IH]; simpl; [easy|].
  intros H. apply andb_true_iff in H. destruct H as (Hc & Ht).
  rewrite (IH Ht), andb_true_r. unfold tld_class, is_alpha in *.
  apply orb_true_iff in Hc. destruct Hc as [-> | ->]; [easy|apply orb_true_r].
Qed.

Lemma tld_without_bar_is_alpha (t : string) :
  has_char "|" t = false -> all_chars tld_class t = true ->
  all_chars is_alpha t = true.
Proof.
  induction t as [|c t IH]; simpl; [easy|].
  intros Hb H. apply orb_false_iff in Hb. destruct Hb as (Hc & Hb).
  apply andb_true_iff in H. destruct H as (Hcls & Ht).
  rewrite (IH Hb Ht), andb_true_r. unfold tld_class, has_char in Hcls.
  rewrite Ascii.eqb_sym, Hc in Hcls.
  now rewrite !orb_false_r in Hcls.
Qed.

(** C7, as stated, fails: the whole of [%a@b.cc] matches the pattern of the
    specification, local part [%a], domain [b], top level [cc], and
    [validate_email] answers no, because the [\b] the code's pattern begins
    with does not hold before a [%]. *)
Lemma validate_email_rejects_spec_address :
  spec_address "%a@b.cc" /\ validate_email "%a@b.cc" = false.
Proof.
  split; [|reflexivity].
  exists "%a", "b", "cc". simpl. repeat split; lia.
Qed.

(** C7, amended.  For a string without the character [|],
    [validate_email] answers yes exactly when the whole string matches the
    address pattern and its first character is a word character (a letter,
    a digit or the underscore), which is what the [\b] at both ends of the
    code's pattern asks for on top of the pattern. *)
Theorem validate_email_full_match (s : string) :
  has_char "|" s = false ->
  (validate_email s = true <->
   spec_address s /\ Re.word_at (Re.peek s) = true).
Proof.
  intros Hbar. unfold validate_email.
  rewrite fullmatch_iff, email_pattern_matches. split.
  - intros (l & d & t & E & Nl & Hl & Nd & Hd & Nt & Ht & B1 & B2).
    split; [|exact B1]. exists l, d, t. repeat split; try assumption.
    apply tld_without_bar_is_alpha; [|exact Ht].
    rewrite E in Hbar. rewrite has_char_append in Hbar.
    apply orb_false_iff in Hbar. destruct Hbar as (_ & Hbar).
    simpl in Hbar. rewrite has_char_append in Hbar.
    apply orb_false_iff in Hbar. destruct Hbar as (_ & Hbar).
    simpl in Hbar. exact Hbar.
  - intros ((l & d & t & E & Nl & Hl & Nd & Hd & Nt & Ht) & B1).
    exists l, d, t. repeat split; try assumption.
    + now apply alpha_is_tld.
    + destruct (last_char_all is_alpha t (Some "."%char) Ht) as (c & -> & Hc);
        [lia|].
      simpl. now apply alpha_is_word.
Qed.

Lemma validate_email_full_match_witness :
  validate_email "a.b@mail.example.org" = true /\
  spec_address "a.b@mail.example.org".
Proof.
  split; [reflexivity|].
  apply (proj1 (validate_email_full_match "a.b@mail.example.org" eq_refl)).
  reflexivity.
Defined.

End ValidationProperties.

(* ================================================================== *)
(** ** The scan of a text *)

Module ScanFacts.

Import PyStr Notions ReFacts.

Lemma substring_skip (pre s : string) (k n : nat) :
  substring (String.length pre + k) n (pre ++ s)%string = substring k n s.
Proof. induction pre as [|c pre IH]; simpl; [easy|exact IH]. Qed.

Lemma substring_length (s : string) :
  forall k n, k + n <= String.length s ->
              String.length (substring k n s) = n.
Proof.
  induction s as [|c s IH]; intros [|k] [|n]; simpl; intros H;
    try reflexivity; try lia.
  - now rewrite IH by lia.
  - apply IH. lia.
  - apply IH. lia.
Qed.

Lemma advance_split (n : nat) :
  forall prev s,
    n <= String.length s ->
    exists pre,
      s = (pre ++ snd (Re.advance n prev s))%string /\ String.length pre = n.
Proof.
  induction n as [|n IH]; intros prev s H.
  - exists EmptyString. now destruct s.
  - destruct s as [|c s]; simpl in H; [lia|].
    destruct (IH (Some c) s) as (pre & E & L); [lia|].
    exists (String c pre). simpl. now rewrite <- E, L.
Qed.

Lemma search_bound (p : Re.pattern) (s : string) :
  forall prev k n,
    Re.search p prev s = Some (k, n) -> k + n <= String.length s.
Proof.
  induction s as [|c s IH]; intros prev k n; simpl.
  - destruct (Re.match_here false p prev EmptyString) as [r|] eqn:E;
      [|discriminate].
    intros H. injection H as <- <-. now apply match_here_bound in E.
  - destruct (Re.match_here false p prev (String c s)) as [r|] eqn:E.
    + intros H. injection H as <- <-. now apply match_here_bound in E.
    + destruct (Re.search p (Some c) s) as [[k' n']|] eqn:E2; [|discriminate].
      intros H. injection H as <- <-. apply IH in E2. lia.
Qed.

Section Finditer.

Variable p : Re.pattern.

Lemma finditer_from_unfold (fuel off : nat) (prev : option ascii) (s : string) :
  Re.finditer_from (S fuel) p off prev s =
  match Re.search p prev s with
  | None => []
  | Some (k, n) =>
      (off + k, substring k n s)
        :: (if String.length s <? k + Nat.max 1 n then []
            else Re.finditer_from fuel p (off + (k + Nat.max 1 n))
                   (fst (Re.advance (k + Nat.max 1 n) prev s))
                   (snd (Re.advance (k + Nat.max 1 n) prev s)))
  end.
Proof.
  cbn [Re.finditer_from]. destruct (Re.search p prev s) as [[k n]|]; [|easy].
  now destruct (Re.advance (k + Nat.max 1 n) prev s).
Qed.

(** The matches come from left to right. *)
Lemma finditer_from_sorted (fuel : nat) :
  forall off prev s,
    StronglySorted lt (map fst (Re.finditer_from fuel p off prev s)) /\
    Forall (le off) (map fst (Re.finditer_from fuel p off prev s)).
Proof.
  induction fuel as [|fuel IH]; intros off prev s.
  - split; constructor.
  - rewrite finditer_from_unfold.
    destruct (Re.search p prev s) as [[k n]|]; [|split; constructor].
    destruct (String.length s <? k + Nat.max 1 n).
    + simpl. split; constructor; try constructor; lia.
    + destruct (IH (off + (k + Nat.max 1 n))
                  (fst (Re.advance (k + Nat.max 1 n) prev s))
                  (snd (Re.advance (k + Nat.max 1 n) prev s))) as (S1 & F1).
      simpl. split; constructor; try assumption; try lia;
        (eapply Forall_impl; [|exact F1]); intros a Ha; simpl; lia.
Qed.

(** Each match is the piece of the text at its offset. *)
Lemma finditer_from_text (text : string) (fuel : nat) :
  forall pre prev s,
    text = (pre ++ s)%string ->
    forall off m,
      In (off, m) (Re.finditer_from fuel p (String.length pre) prev s) ->
      substring off (String.length m) text = m.
Proof.
  induction fuel as [|fuel IH]; intros pre prev s E off m; [intros []|].
  rewrite finditer_from_unfold.
  destruct (Re.search p prev s) as [[k n]|] eqn:Hs; [|intros []].
  pose proof (search_bound _ _ _ _ _ Hs) as B.
  intros [H|H].
  - injection H as <- <-. rewrite substring_length by exact B.
    rewrite E. apply substring_skip.
  - destruct (Nat.ltb_spec (String.length s) (k + Nat.max 1 n)) as [L|L];
      [destruct H|].
    destruct (advance_split _ prev s L) as (pre2 & E2 & L2).
    rewrite <- L2, <- length_append in H at 1.
    apply IH in H; [exact H|].
    now rewrite append_assoc, <- E2.
Qed.

(** The fuel [finditer] starts with is enough: more changes nothing. *)
Lemma finditer_from_fuel (fuel1 : nat) :
  forall fuel2 off prev s,
    String.length s < fuel1 -> String.length s < fuel2 ->
    Re.finditer_from fuel1 p off prev s = Re.finditer_from fuel2 p off prev s.
Proof.
  induction fuel1 as [|fuel1 IH]; intros [|fuel2] off prev s H1 H2; try lia.
  rewrite !finditer_from_unfold.
  destruct (Re.search p prev s) as [[k n]|]; [|reflexivity].
  f_equal.
  destruct (Nat.ltb_spec (String.length s) (k + Nat.max 1 n)) as [L|L];
    [reflexivity|].
  destruct (advance_split _ prev s L) as (pre2 & E2 & L2).
  assert (String.length (snd (Re.advance (k + Nat.max 1 n) prev s))
          < String.length s) as D.
  { rewrite E2 at 2. rewrite length_append. lia. }
  apply IH; lia.
Qed.

Lemma finditer_sorted (text : string) :
  StronglySorted lt (map fst (Re.finditer p text)).
Proof. apply finditer_from_sorted. Qed.

Lemma finditer_text (text : string) (off : nat) (m : string) :
  In (off, m) (Re.finditer p text) ->
  substring off (String.length m) text = m.
Proof.
  apply (finditer_from_text text _ EmptyString None text). reflexivity.
Qed.

Lemma finditer_enough_fuel (text : string) (fuel : nat) :
  String.length text < fuel ->
  Re.finditer_from fuel p 0 None text = Re.finditer p text.
Proof. intros H. apply finditer_from_fuel; [exact H|lia]. Qed.

End Finditer.

End ScanFacts.

(* ================================================================== *)
(** ** Properties of the extractor: extraction *)

Module ExtractionProperties.

Import PyStr Notions StrFacts ScanFacts EmailExtractor.

Lemma set_add_new (x : string) (s : list string) :
  mem x s = false -> set_add x s = s ++ [x].
Proof. intros H. unfold set_add. now rewrite H. Qed.

(** The loop of [extract_from_text] builds the list the loop of
    [extract_from_files] builds; it feeds the session cache besides. *)
Lemma text_fold_files_fold (emails : list string) :
  forall seen unique_emails cache,
    fst (fold_left text_step emails (seen, unique_emails, cache))
    = fold_left files_step emails (seen, unique_emails).
Proof.
  induction emails as [|e emails IH]; intros seen u cache; simpl; [easy|].
  destruct (mem e seen); apply IH.
Qed.

Lemma first_pos_app_l (cs : bool) (l l' : list (nat * string)) (x : string)
    (a : nat) :
  first_pos cs l x = Some a -> first_pos cs (l ++ l') x = Some a.
Proof.
  induction l as [|[off m] l IH]; simpl; [discriminate|].
  destruct (String.eqb (norm cs m) x); [easy|exact IH].
Qed.

Lemma first_pos_app_r (cs : bool) (l l' : list (nat * string)) (x : string) :
  first_pos cs l x = None -> first_pos cs (l ++ l') x = first_pos cs l' x.
Proof.
  induction l as [|[off m] l IH]; simpl; [easy|].
  destruct (String.eqb (norm cs m) x); [discriminate|exact IH].
Qed.

Lemma first_pos_found (cs : bool) (l : list (nat * string)) (x : string)
    (off : nat) (m : string) :
  In (off, m) l -> norm cs m = x ->
  exists a, first_pos cs l x = Some a /\ In a (map fst l).
Proof.
  induction l as [|[off' m'] l IH]; simpl; [intros []|].
  intros H E. destruct (String.eqb_spec (norm cs m') x) as [_|Hne].
  - exists off'. auto.
  - destruct H as [H|H]; [injection H as -> ->; now destruct Hne|].
    destruct (IH H E) as (a & Ha & Hin). exists a. auto.
Qed.

Lemma first_pos_none (cs : bool) (l : list (nat * string)) (x : string) :
  (forall off m, In (off, m) l -> norm cs m <> x) -> first_pos cs l x = None.
Proof.
  induction l as [|[off m] l IH]; simpl; intros H; [easy|].
  destruct (String.eqb_spec (norm cs m) x) as [E|_].
  - exfalso. apply (H off m); auto.
  - apply IH. intros off' m' Hin. apply (H off' m'). auto.
Qed.

Lemma sorted_snoc (l : list nat) (b : nat) :
  StronglySorted lt (l ++ [b]) ->
  StronglySorted lt l /\ Forall (fun a => a < b) l.
Proof.
  induction l as [|a l IH]; simpl; intros H; [split; constructor|].
  apply StronglySorted_inv in H. destruct H as (S & F).
  destruct (IH S) as (S' & F'). split.
  - constructor; [exact S'|]. apply Forall_forall. intros y Hy.
    rewrite Forall_forall in F. apply F, in_or_app. now left.
  - constructor; [|exact F'].
    rewrite Forall_forall in F. apply F, in_or_app. right. now left.
Qed.

Lemma nodup_snoc (l : list string) (x : string) :
  NoDup l -> ~ In x l -> NoDup (l ++ [x]).
Proof.
  induction l as [|a l IH]; simpl; intros N H.
  - constructor; [easy|constructor].
  - apply NoDup_cons_iff in N. destruct N as (Ha & N).
    constructor; [|apply IH; tauto].
    intros Hin. apply in_app_or in Hin. destruct Hin as [Hin|[<-|[]]]; tauto.
Qed.

Section Dedup.

Variable cs : bool.

Lemma dedup_invariant (spans : list (nat * string)) :
  StronglySorted lt (map fst spans) ->
  Deduped cs spans
    (fold_left files_step (map (fun sp => norm cs (snd sp)) spans) ([], [])).
Proof.
  induction spans as [|[off m] spans IH] using rev_ind; intros Hs.
  - simpl. repeat split.
    + constructor.
    + intros [].
    + intros (o & m & [] & _).
    + intros i j x y _ H. now destruct i.
  - rewrite map_app in Hs. simpl in Hs.
    apply sorted_snoc in Hs. destruct Hs as (Hs & Hlt).
    specialize (IH Hs). rewrite map_app, fold_left_app. simpl.
    destruct (fold_left files_step (map (fun sp => norm cs (snd sp)) spans)
                ([], [])) as [seen u].
    destruct IH as (Es & Nd & Hin & Hord). simpl in Es, Nd, Hin, Hord.
    subst seen. unfold files_step.
    destruct (mem (norm cs m) u) eqn:M.
    + (* an address seen before *)
      apply mem_In in M. repeat split; simpl.
      * exact Nd.
      * intros Hx. apply Hin in Hx. destruct Hx as (o & m' & Ho & E).
        exists o, m'. split; [apply in_or_app; now left|exact E].
      * intros (o & m' & Ho & E). apply in_app_or in Ho.
        destruct Ho as [Ho|[Ho|[]]].
        -- apply Hin. now exists o, m'.
        -- injection Ho as <- <-. now subst x.
      * intros i j x y Hij Hx Hy.
        destruct (Hord i j x y Hij Hx Hy) as (a & b & Ha & Hb & Hab).
        exists a, b. repeat split; [now apply first_pos_app_l ..|exact Hab].
    + (* a new address *)
      assert (~ In (norm cs m) u) as Hnew.
      { intros H. apply mem_In in H. congruence. }
      rewrite set_add_new by exact M. repeat split; simpl.
      * now apply nodup_snoc.
      * intros Hx. apply in_app_or in Hx. destruct Hx as [Hx|[<-|[]]].
        -- apply Hin in Hx. destruct Hx as (o & m' & Ho & E).
           exists o, m'. split; [apply in_or_app; now left|exact E].
        -- exists off, m. split; [apply in_or_app; right; now left|easy].
      * intros (o & m' & Ho & E). apply in_or_app. apply in_app_or in Ho.
        destruct Ho as [Ho|[Ho|[]]].
        -- left. apply Hin. now exists o, m'.
        -- injection Ho as <- <-. right. now left.
      * intros i j x y Hij Hx Hy.
        destruct (Nat.lt_ge_cases j (List.length u)) as [Hj|Hj].
        -- rewrite nth_error_app1 in Hx, Hy by lia.
           destruct (Hord i j x y Hij Hx Hy) as (a & b & Ha & Hb & Hab).
           exists a, b. repeat split; [now apply first_pos_app_l ..|exact Hab].
        -- rewrite nth_error_app2 in Hy by exact Hj.
           destruct (j - List.length u) as [|d] eqn:D;
             [|now destruct d].
           simpl in Hy. injection Hy as <-.
           rewrite nth_error_app1 in Hx by lia.
           apply nth_error_In, Hin in Hx. destruct Hx as (o & m' & Ho & E).
           destruct (first_pos_found cs spans x o m' Ho E) as (a & Ha & Hain).
           rewrite Forall_forall in Hlt.
           exists a, off. repeat split.
           ++ now apply first_pos_app_l.
           ++ rewrite first_pos_app_r.
              ** simpl. now rewrite String.eqb_refl.
              ** apply first_pos_none. intros o' m'' Ho' E'.
                 apply Hnew, Hin. now exists o', m''.
           ++ now apply Hlt.
Qed.

End Dedup.

Lemma extract_from_text_result (self : t) (text : string) :
  snd (extract_from_text self text)
  = snd (fold_left files_step
           (map (fun sp => norm (case_sensitive self) (snd sp))
                (Re.finditer EMAIL_PATTERN text))
           ([], [])).
Proof.
  unfold extract_from_text. destruct text as [|c text]; [reflexivity|].
  cbn [truthy negb].
  set (emails := if case_sensitive self then _ else _).
  assert (emails = map (fun sp => norm (case_sensitive self) (snd sp))
                       (Re.finditer EMAIL_PATTERN (String c text))) as ->.
  { unfold emails, Re.findall, norm.
    destruct (case_sensitive self); [reflexivity|]. now rewrite map_map. }
  pose proof (text_fold_files_fold
                (map (fun sp => norm (case_sensitive self) (snd sp))
                     (Re.finditer EMAIL_PATTERN (String c text)))
                [] [] (_extracted_emails self)) as F.
  destruct (fold_left text_step _ _) as [[seen u] cache]. simpl in F.
  rewrite <- F. reflexivity.
Qed.

(** C4.  In either case mode the list [extract_from_text] returns has no
    address twice, holds exactly the addresses the matches of the pattern
    yield, and lists them by the offset of the first match that yields
    them.  The matches are those of a scan from left to right, each the
    piece of the text at its offset. *)
Theorem extraction_unique_in_first_occurrence_order (self : t)
    (text : string) :
  let cs := case_sensitive self in
  let spans := Re.finditer EMAIL_PATTERN text in
  let out := snd (extract_from_text self text) in
  (StronglySorted lt (map fst spans) /\
   forall off m, In (off, m) spans ->
                 substring off (String.length m) text = m) /\
  NoDup out /\
  (forall x, In x out <-> exists off m, In (off, m) spans /\ norm cs m = x) /\
  (forall i j x y,
      i < j -> nth_error out i = Some x -> nth_error out j = Some y ->
      exists a b, first_pos cs spans x = Some a /\
                  first_pos cs spans y = Some b /\ a < b).
Proof.
  intros cs spans out.
  pose proof (finditer_sorted EMAIL_PATTERN text) as Hs.
  split; [split; [exact Hs|apply finditer_text]|].
  unfold out. rewrite extract_from_text_result.
  destruct (dedup_invariant cs spans Hs) as (_ & Nd & Hin & Hord).
  split; [exact Nd|]. split; [exact Hin|exact Hord].
Qed.

Lemma extraction_unique_in_first_occurrence_order_witness :
  let text := "To B@x.org, a@y.org and b@X.org" in
  let spans := Re.finditer EMAIL_PATTERN text in
  snd (extract_from_text (init false) text) = ["b@x.org"; "a@y.org"] /\
  exists a b, first_pos false spans "b@x.org" = Some a /\
              first_pos false spans "a@y.org" = Some b /\ a < b.
Proof.
  intros text spans. split; [reflexivity|].
  destruct (extraction_unique_in_first_occurrence_order (init false) text)
    as (_ & _ & _ & Hord).
  apply (Hord 0 1 "b@x.org" "a@y.org"); [lia|reflexivity|reflexivity].
Defined.

(** C2, as stated, fails in its last part: the two addresses at
    [company.com] are not listed under [other], whose list is empty; they
    are under [business], [company.com] being one of [BUSINESS_DOMAINS]. *)
Lemma company_addresses_are_business :
  let text :=
    "Contact sales@company.com or support@company.com or info@gmail.com" in
  let emails := snd (extract_from_text (init false) text) in
  EmailCategorizer.lookup "other" (EmailCategorizer.categorize_by_type emails)
  = Some [] /\
  EmailCategorizer.lookup "business"
    (EmailCategorizer.categorize_by_type emails)
  = Some ["sales@company.com"; "support@company.com"].
Proof. split; reflexivity. Qed.

(** C2, amended.  From the text of the example the extractor returns the
    three addresses in the order of the text, in both case modes, and the
    type strategy lists [info@gmail.com] under [free] and the two addresses
    at [company.com] under [business]. *)
Theorem end_to_end_example (case_sensitive : bool) :
  let text :=
    "Contact sales@company.com or support@company.com or info@gmail.com" in
  let emails := snd (extract_from_text (init case_sensitive) text) in
  emails = ["sales@company.com"; "support@company.com"; "info@gmail.com"] /\
  EmailCategorizer.categorize_by_type emails
  = [ ("free", ["info@gmail.com"]);
      ("business", ["sales@company.com"; "support@company.com"]);
      ("educational", []); ("government", []); ("other", []) ].
Proof. destruct case_sensitive; split; reflexivity. Qed.

End ExtractionProperties.

(* ================================================================== *)
(** ** The shape of what the scan finds *)

Module ShapeFacts.

Import PyStr Notions ReFacts ScanFacts EmailExtractor.

Ltac each_char c := destruct c as [[] [] [] [] [] [] [] []].

Lemma substring_prefix (a b : string) :
  substring 0 (String.length a) (a ++ b)%string = a.
Proof.
  induction a as [|c a IH]; simpl; [now destruct b|]. now rewrite IH.
Qed.

Lemma lower_append (a b : string) :
  lower (a ++ b)%string = (lower a ++ lower b)%string.
Proof. induction a as [|c a IH]; simpl; [easy|]. now rewrite IH. Qed.

Lemma lower_length (s : string) : String.length (lower s) = String.length s.
Proof. induction s as [|c s IH]; simpl; [easy|]. now rewrite IH. Qed.

Lemma lower_char_idempotent (c : ascii) :
  lower_char (lower_char c) = lower_char c.
Proof. each_char c; reflexivity. Qed.

Lemma lower_idempotent (s : string) : lower (lower s) = lower s.
Proof.
  induction s as [|c s IH]; simpl; [easy|].
  now rewrite lower_char_idempotent, IH.
Qed.

Lemma local_class_lower (c : ascii) :
  local_class c = true -> local_class (lower_char c) = true.
Proof. each_char c; vm_compute; auto. Qed.

Lemma domain_class_lower (c : ascii) :
  domain_class c = true -> domain_class (lower_char c) = true.
Proof. each_char c; vm_compute; auto. Qed.

Lemma tld_class_lower (c : ascii) :
  tld_class c = true -> tld_class (lower_char c) = true.
Proof. each_char c; vm_compute; auto. Qed.

Lemma all_chars_lower (cls : ascii -> bool) :
  (forall c, cls c = true -> cls (lower_char c) = true) ->
  forall s, all_chars cls s = true -> all_chars cls (lower s) = true.
Proof.
  intros H. induction s as [|c s IH]; simpl; [easy|].
  intros Hs. apply andb_true_iff in Hs. destruct Hs as (Hc & Hs).
  now rewrite (H c Hc), (IH Hs).
Qed.

Lemma address_lower (x : string) : Address x -> Address (lower x).
Proof.
  intros (l & d & t & -> & Nl & Hl & Nd & Hd & Nt & Ht).
  exists (lower l), (lower d), (lower t).
  rewrite lower_append. simpl. rewrite lower_append. simpl.
  rewrite !lower_length.
  repeat split; try assumption.
  - now apply all_chars_lower; [apply local_class_lower|].
  - now apply all_chars_lower; [apply domain_class_lower|].
  - now apply all_chars_lower; [apply tld_class_lower|].
Qed.

Lemma class_without (cls : ascii -> bool) (c : ascii) (s : string) :
  cls c = false -> all_chars cls s = true -> has_char c s = false.
Proof.
  intros Hc. induction s as [|d s IH]; simpl; [easy|].
  intros Hs. apply andb_true_iff in Hs. destruct Hs as (Hd & Hs).
  rewrite (IH Hs), orb_false_r.
  destruct (Ascii.eqb_spec d c) as [->|]; [congruence|reflexivity].
Qed.

(** An address has one [@], and a domain that is not empty. *)
Lemma address_domain (x : string) :
  Address x ->
  exists d, EmailCategorizer._extract_domain x = Some d /\ truthy d = true.
Proof.
  intros (l & d & t & -> & Nl & Hl & Nd & Hd & Nt & Ht).
  exists (lower (d ++ String "." t)). split.
  - apply StrFacts.extract_domain_last.
    + now apply (class_without local_class).
    + rewrite has_char_append. simpl.
      rewrite (class_without domain_class "@" d eq_refl Hd).
      now rewrite (class_without tld_class "@" t eq_refl Ht).
  - rewrite StrFacts.truthy_lower. destruct d; [simpl in Nd; lia|reflexivity].
Qed.

Lemma address_has_at (x : string) : Address x -> has_char "@" x = true.
Proof.
  intros (l & d & t & -> & _). rewrite has_char_append. simpl.
  apply orb_true_r.
Qed.

(** Where the pattern matches, what it has read is an address. *)
Lemma match_email_shape (prev : option ascii) (s : string) (n : nat) :
  Re.match_here false EMAIL_PATTERN prev s = Some n ->
  exists x rest,
    s = (x ++ rest)%string /\ Address x /\ n = String.length x.
Proof.
  unfold EMAIL_PATTERN. cbn [Re.match_here].
  destruct (Re.is_boundary prev (Re.peek s)); [|discriminate].
  intros H. apply rep_sound in H.
  destruct H as (l & s1 & r1 & -> & Hl & Nl & Hk & ->).
  cbn [Re.match_here] in Hk. destruct s1 as [|c s2]; [discriminate|].
  destruct (Ascii.eqb_spec c "@") as [->|]; [|discriminate].
  destruct (Re.rep domain_class 1 _ 0 (Some "@"%char) s2) as [r2|] eqn:H2;
    [|discriminate].
  simpl in Hk. injection Hk as <-. apply rep_sound in H2.
  destruct H2 as (d & s3 & r3 & -> & Hd & Nd & Hk & ->).
  cbn [Re.match_here] in Hk. destruct s3 as [|c s4]; [discriminate|].
  destruct (Ascii.eqb_spec c ".") as [->|]; [|discriminate].
  destruct (Re.rep tld_class 2 _ 0 (Some "."%char) s4) as [r4|] eqn:H4;
    [|discriminate].
  simpl in Hk. injection Hk as <-. apply rep_sound in H4.
  destruct H4 as (t & s5 & r5 & -> & Ht & Nt & Hk & ->).
  cbn [Re.match_here] in Hk.
  destruct (Re.is_boundary _ _); [|discriminate]. injection Hk as <-.
  exists (l ++ String "@" (d ++ String "." t))%string, s5.
  split; [|split].
  - rewrite append_assoc. simpl. rewrite append_assoc. reflexivity.
  - exists l, d, t. repeat split; try assumption; lia.
  - rewrite !length_append. simpl. rewrite !length_append. simpl. lia.
Qed.

Lemma search_split (p : Re.pattern) (s : string) :
  forall prev k n,
    Re.search p prev s = Some (k, n) ->
    exists pre s',
      s = (pre ++ s')%string /\ String.length pre = k /\
      Re.match_here false p (last_char prev pre) s' = Some n.
Proof.
  induction s as [|c s IH]; intros prev k n; simpl.
  - destruct (Re.match_here false p prev EmptyString) as [r|] eqn:E;
      [|discriminate].
    intros H. injection H as <- <-. now exists EmptyString, EmptyString.
  - destruct (Re.match_here false p prev (String c s)) as [r|] eqn:E.
    + intros H. injection H as <- <-. now exists EmptyString, (String c s).
    + destruct (Re.search p (Some c) s) as [[k' n']|] eqn:E2; [|discriminate].
      intros H. injection H as <- <-.
      destruct (IH _ _ _ E2) as (pre & s' & -> & L & M).
      exists (String c pre), s'. simpl. now rewrite L.
Qed.

Lemma search_email_shape (prev : option ascii) (s : string) (k n : nat) :
  Re.search EMAIL_PATTERN prev s = Some (k, n) ->
  Address (substring k n s) /\ has_char "@" s = true.
Proof.
  intros H. destruct (search_split _ _ _ _ _ H) as (pre & s' & -> & <- & M).
  destruct (match_email_shape _ _ _ M) as (x & rest & -> & A & ->).
  rewrite <- (Nat.add_0_r (String.length pre)), substring_skip.
  rewrite substring_prefix. split; [exact A|].
  rewrite !has_char_append, (address_has_at x A). simpl.
  apply orb_true_r.
Qed.

Section Finditer.

Variable p : Re.pattern.

Lemma finditer_from_all (P : string -> Prop) :
  (forall prev s k n,
      Re.search p prev s = Some (k, n) -> P (substring k n s)) ->
  forall fuel off prev s,
    Forall (fun sp => P (snd sp)) (Re.finditer_from fuel p off prev s).
Proof.
  intros H. induction fuel as [|fuel IH]; intros off prev s; [constructor|].
  rewrite finditer_from_unfold.
  destruct (Re.search p prev s) as [[k n]|] eqn:E; [|constructor].
  constructor; [now apply (H prev)|].
  destruct (String.length s <? k + Nat.max 1 n); [constructor|apply IH].
Qed.

(** A match ends before the next one begins. *)
Lemma finditer_from_disjoint (fuel : nat) :
  forall off prev s,
    Disjoint_spans (Re.finditer_from fuel p off prev s).
Proof.
  induction fuel as [|fuel IH]; intros off prev s; [constructor|].
  rewrite finditer_from_unfold.
  destruct (Re.search p prev s) as [[k n]|] eqn:E; [|constructor].
  pose proof (search_bound _ _ _ _ _ E) as B.
  destruct (String.length s <? k + Nat.max 1 n).
  - constructor; constructor.
  - constructor; [apply IH|].
    destruct (finditer_from_sorted p fuel (off + (k + Nat.max 1 n))
                (fst (Re.advance (k + Nat.max 1 n) prev s))
                (snd (Re.advance (k + Nat.max 1 n) prev s))) as (_ & F).
    rewrite Forall_map in F. eapply Forall_impl; [|exact F].
    intros [o m] Ho. cbn [fst snd] in *.
    rewrite substring_length by exact B. lia.
Qed.

End Finditer.

Lemma finditer_addresses (text : string) :
  Forall (fun sp => Address (snd sp)) (Re.finditer EMAIL_PATTERN text).
Proof.
  apply finditer_from_all. intros prev s k n H.
  now destruct (search_email_shape _ _ _ _ H).
Qed.

Lemma finditer_without_at (text : string) :
  has_char "@" text = false -> Re.finditer EMAIL_PATTERN text = [].
Proof.
  intros H. unfold Re.finditer. rewrite finditer_from_unfold.
  destruct (Re.search EMAIL_PATTERN None text) as [[k n]|] eqn:E; [|easy].
  destruct (search_email_shape _ _ _ _ E). congruence.
Qed.

End ShapeFacts.

(* ================================================================== *)
(** ** More on the extractor *)

Module ExtractorFacts.

Import PyStr Notions StrFacts ReFacts ScanFacts ShapeFacts EmailExtractor.
Import ExtractionProperties.

Lemma set_add_In (e : string) (c : list string) (x : string) :
  In x (set_add e c) <-> x = e \/ In x c.
Proof.
  unfold set_add. destruct (mem e c) eqn:M.
  - apply mem_In in M. split; [now right|]. intros [->|H]; assumption.
  - rewrite in_app_iff. simpl. split.
    + intros [H|[H|[]]]; [now right|now left].
    + intros [H|H]; [right; now left|now left].
Qed.

Lemma set_add_nodup (e : string) (c : list string) :
  NoDup c -> NoDup (set_add e c).
Proof.
  intros N. unfold set_add. destruct (mem e c) eqn:M; [exact N|].
  apply nodup_snoc; [exact N|]. intros H. apply mem_In in H. congruence.
Qed.

(** The loop of [extract_from_files]: the first occurrences, in order. *)
Lemma files_fold_spec (l : list string) :
  fst (fold_left files_step l ([], [])) = snd (fold_left files_step l ([], []))
  /\ NoDup (snd (fold_left files_step l ([], [])))
  /\ forall x, In x (snd (fold_left files_step l ([], []))) <-> In x l.
Proof.
  induction l as [|e l IH] using rev_ind.
  - simpl. repeat split; [constructor|easy|easy].
  - rewrite fold_left_app. simpl.
    destruct (fold_left files_step l ([], [])) as [seen u].
    simpl in IH. destruct IH as (-> & N & I). unfold files_step.
    destruct (mem e u) eqn:M.
    + simpl. repeat split; [exact N| |].
      * intros H. apply in_or_app. left. now apply I.
      * intros H. apply in_app_or in H. destruct H as [H|[<-|[]]].
        -- now apply I.
        -- now apply mem_In.
    + rewrite set_add_new by exact M. simpl. repeat split.
      * apply nodup_snoc; [exact N|]. intros H. apply mem_In in H. congruence.
      * intros H. apply in_or_app. apply in_app_or in H.
        destruct H as [H|H]; [left; now apply I|now right].
      * intros H. apply in_or_app. apply in_app_or in H.
        destruct H as [H|H]; [left; now apply I|now right].
Qed.

(** On a list without repetition the loop changes nothing. *)
Lemma files_fold_nodup (l : list string) :
  NoDup l -> fold_left files_step l ([], []) = (l, l).
Proof.
  induction l as [|e l IH] using rev_ind; intros N; [reflexivity|].
  rewrite fold_left_app. simpl.
  assert (NoDup l /\ ~ In e l) as (Nl & He).
  { apply NoDup_remove in N. rewrite app_nil_r in N. exact N. }
  rewrite (IH Nl). unfold files_step.
  destruct (mem e l) eqn:M; [apply mem_In in M; tauto|].
  now rewrite set_add_new.
Qed.

(** The loop of [extract_from_text], the cache included. *)
Lemma text_fold_cache (emails cache : list string) :
  let st := fold_left text_step emails ([], [], cache) in
  fst (fst st) = snd (fst st) /\
  (forall x, In x (snd st) <-> In x cache \/ In x (snd (fst st))) /\
  (NoDup cache -> NoDup (snd st)).
Proof.
  induction emails as [|e emails IH] using rev_ind.
  - simpl. repeat split; tauto.
  - rewrite fold_left_app. simpl.
    destruct (fold_left text_step emails ([], [], cache)) as [[seen u] c].
    simpl in IH. destruct IH as (-> & I & N). unfold text_step.
    destruct (mem e u) eqn:M; simpl;
      [split; [reflexivity|split; [exact I|exact N]]|].
    rewrite (set_add_new e u M). repeat split.
    + intros H. apply set_add_In in H. rewrite in_app_iff. simpl.
      destruct H as [->|H]; [tauto|]. apply I in H. tauto.
    + intros H. apply set_add_In. rewrite in_app_iff in H. simpl in H.
      destruct H as [H|[H|[H|[]]]]; [right; apply I; tauto
                                    |right; apply I; tauto|now left].
    + intros H. now apply set_add_nodup, N.
Qed.

Lemma extract_from_text_eq (self : t) (text : string) :
  let st :=
    fold_left text_step
      (map (fun sp => norm (case_sensitive self) (snd sp))
           (Re.finditer EMAIL_PATTERN text))
      ([], [], _extracted_emails self) in
  extract_from_text self text
  = ({| case_sensitive := case_sensitive self;
        _extracted_emails := snd st |},
     snd (fst st)).
Proof.
  destruct text as [|c text]; [now destruct self|].
  unfold extract_from_text. cbn [truthy negb].
  set (emails := if case_sensitive self then _ else _).
  assert (emails = map (fun sp => norm (case_sensitive self) (snd sp))
                       (Re.finditer EMAIL_PATTERN (String c text))) as ->.
  { unfold emails, Re.findall, norm.
    destruct (case_sensitive self); [reflexivity|]. now rewrite map_map. }
  now destruct (fold_left text_step _ _) as [[seen u] cache].
Qed.

(** What [extract_from_text] returns: no address twice, each of the shape
    of an address, each in lower case unless the case is kept. *)
Lemma extract_from_text_facts (self : t) (text : string) :
  NoDup (snd (extract_from_text self text)) /\
  Forall Address (snd (extract_from_text self text)) /\
  (case_sensitive self = false ->
   Forall (fun x => lower x = x) (snd (extract_from_text self text))).
Proof.
  rewrite extract_from_text_result.
  destruct (dedup_invariant (case_sensitive self)
              (Re.finditer EMAIL_PATTERN text)
              (finditer_sorted _ text)) as (_ & N & I & _).
  split; [exact N|]. split.
  - apply Forall_forall. intros x Hx. apply I in Hx.
    destruct Hx as (off & m & Hm & <-).
    pose proof (finditer_addresses text) as F. rewrite Forall_forall in F.
    specialize (F _ Hm). simpl in F. unfold norm.
    destruct (case_sensitive self); [exact F|now apply address_lower].
  - intros Hcs. apply Forall_forall. intros x Hx. apply I in Hx.
    destruct Hx as (off & m & Hm & <-). rewrite Hcs. apply lower_idempotent.
Qed.

Lemma extract_from_text_mode (self : t) (text : string) :
  case_sensitive (fst (extract_from_text self text)) = case_sensitive self.
Proof. now rewrite extract_from_text_eq. Qed.

Lemma clean_app (cs : bool) (a b : list string) :
  Clean cs a -> Clean cs b -> Clean cs (a ++ b).
Proof.
  intros (A1 & A2) (B1 & B2). split; [now apply Forall_app|].
  intros H. apply Forall_app. auto.
Qed.

Lemma clean_incl (cs : bool) (a b : list string) :
  (forall x, In x a -> In x b) -> Clean cs b -> Clean cs a.
Proof.
  intros I (B1 & B2). split.
  - apply Forall_forall. intros x Hx. rewrite Forall_forall in B1. auto.
  - intros H. specialize (B2 H). apply Forall_forall. intros x Hx.
    rewrite Forall_forall in B2. auto.
Qed.

Lemma extract_from_file_facts (h : Host) (self self' : t) (p : string)
    (r : list string) :
  extract_from_file h self p = (self', inr r) ->
  NoDup r /\ Clean (case_sensitive self) r /\
  case_sensitive self' = case_sensitive self.
Proof.
  unfold extract_from_file.
  destruct (path_exists h p); simpl; [|discriminate].
  destruct (read_text h p) as [e|text]; [discriminate|].
  destruct (extract_from_text self text) as [x r0] eqn:E.
  intros H. injection H as <- <-.
  destruct (extract_from_text_facts self text) as (N & A & L).
  pose proof (extract_from_text_mode self text) as Hm.
  rewrite E in *. simpl in *. now repeat split.
Qed.

Lemma extract_from_file_failure (h : Host) (self self' : t) (p : string)
    (e : error) :
  extract_from_file h self p = (self', inl e) -> self' = self.
Proof.
  unfold extract_from_file.
  destruct (path_exists h p); simpl; [|now intros H; injection H].
  destruct (read_text h p) as [msg|text]; [now intros H; injection H|].
  now destruct (extract_from_text self text).
Qed.

Lemma extract_from_files_eq (h : Host) (self : t) (file_paths : list string) :
  extract_from_files h self file_paths
  = (fst (fold_left (gather h) file_paths (self, [])),
     snd (fold_left files_step
            (snd (fold_left (gather h) file_paths (self, []))) ([], []))).
Proof.
  unfold extract_from_files. fold (gather h).
  now destruct (fold_left (gather h) file_paths (self, [])).
Qed.

Lemma gather_clean (h : Host) (file_paths : list string) :
  forall self all_emails,
    Clean (case_sensitive self) all_emails ->
    Clean (case_sensitive self)
      (snd (fold_left (gather h) file_paths (self, all_emails))) /\
    case_sensitive (fst (fold_left (gather h) file_paths (self, all_emails)))
    = case_sensitive self.
Proof.
  induction file_paths as [|p ps IH]; intros self all_emails C; [easy|].
  simpl. destruct (extract_from_file h self p) as [self1 [e|r]] eqn:E.
  - apply extract_from_file_failure in E. subst self1. now apply IH.
  - destruct (extract_from_file_facts _ _ _ _ _ E) as (_ & Cr & M).
    destruct (IH self1 (all_emails ++ r)) as (C' & M').
    + rewrite M. now apply clean_app.
    + rewrite M in *. now split.
Qed.

Lemma extract_from_files_facts (h : Host) (self : t)
    (file_paths : list string) :
  NoDup (snd (extract_from_files h self file_paths)) /\
  Clean (case_sensitive self) (snd (extract_from_files h self file_paths)).
Proof.
  rewrite extract_from_files_eq. simpl.
  destruct (files_fold_spec
              (snd (fold_left (gather h) file_paths (self, []))))
    as (_ & N & I).
  split; [exact N|].
  apply clean_incl with (snd (fold_left (gather h) file_paths (self, []))).
  - intros x. apply I.
  - apply gather_clean. split; [constructor|intros _; constructor].
Qed.

End ExtractorFacts.

(* ================================================================== *)
(** ** [strip] and [normalize_email] *)

Module NormalizeFacts.

Import PyStr Notions ReFacts ShapeFacts EmailExtractor.

Lemma is_space_lower (c : ascii) : is_space (lower_char c) = is_space c.
Proof. each_char c; reflexivity. Qed.

Lemma local_not_space (c : ascii) : local_class c = true -> is_space c = false.
Proof. each_char c; vm_compute; auto. Qed.

Lemma tld_not_space (c : ascii) : tld_class c = true -> is_space c = false.
Proof. each_char c; vm_compute; auto. Qed.

Lemma lower_lstrip (s : string) : lower (lstrip s) = lstrip (lower s).
Proof.
  induction s as [|c s IH]; simpl; [easy|]. rewrite is_space_lower.
  now destruct (is_space c).
Qed.

Lemma lower_rstrip (s : string) : lower (rstrip s) = rstrip (lower s).
Proof.
  induction s as [|c s IH]; simpl; [easy|]. rewrite <- IH, is_space_lower.
  destruct (rstrip s) as [|d r]; simpl; [now destruct (is_space c)|easy].
Qed.

Lemma lower_strip (s : string) : lower (strip s) = strip (lower s).
Proof. unfold strip. now rewrite lower_rstrip, lower_lstrip. Qed.

Lemma rstrip_idempotent (s : string) : rstrip (rstrip s) = rstrip s.
Proof.
  induction s as [|c s IH]; simpl; [easy|].
  destruct (rstrip s) as [|d r] eqn:E.
  - destruct (is_space c) eqn:Sc; simpl; [easy|now rewrite Sc].
  - change (rstrip (String c (String d r))) with
      (match rstrip (String d r) with
       | EmptyString => if is_space c then EmptyString else String c EmptyString
       | String d' r' => String c (String d' r')
       end).
    now rewrite IH.
Qed.

Lemma lstrip_headed (s : string) : headed (lstrip s).
Proof.
  induction s as [|c s IH]; simpl; [easy|].
  destruct (is_space c) eqn:E; [exact IH|exact E].
Qed.

Lemma headed_lstrip (s : string) : headed s -> lstrip s = s.
Proof. destruct s as [|c s]; simpl; [easy|]. now intros ->. Qed.

Lemma headed_rstrip (s : string) : headed s -> headed (rstrip s).
Proof.
  destruct s as [|c s]; simpl; [easy|]. intros H.
  destruct (rstrip s); [now rewrite H|exact H].
Qed.

Lemma strip_idempotent (s : string) : strip (strip s) = strip s.
Proof.
  unfold strip.
  rewrite (headed_lstrip (rstrip (lstrip s))).
  - apply rstrip_idempotent.
  - apply headed_rstrip, lstrip_headed.
Qed.

Lemma rstrip_ends_nonspace (s : string) (c : ascii) :
  is_space c = false ->
  rstrip (s ++ String c EmptyString)%string = (s ++ String c EmptyString)%string.
Proof.
  intros Hc. induction s as [|a s IH]; simpl; [now rewrite Hc|].
  rewrite IH. now destruct s.
Qed.

Lemma string_snoc (s : string) :
  1 <= String.length s ->
  exists s' c, s = (s' ++ String c EmptyString)%string.
Proof.
  induction s as [|a s IH]; simpl; intros H; [lia|].
  destruct s as [|b s].
  - now exists EmptyString, a.
  - destruct IH as (s' & c & E); [simpl; lia|].
    exists (String a s'), c. simpl. now rewrite E.
Qed.

Lemma all_chars_append (f : ascii -> bool) (a b : string) :
  all_chars f (a ++ b)%string = all_chars f a && all_chars f b.
Proof.
  induction a as [|c a IH]; simpl; [easy|]. now rewrite IH, andb_assoc.
Qed.

(** [strip] leaves an address alone. *)
Lemma strip_address (x : string) : Address x -> strip x = x.
Proof.
  intros (l & d & t & -> & Nl & Hl & Nd & Hd & Nt & Ht).
  unfold strip. rewrite headed_lstrip.
  - destruct (string_snoc t) as (t' & c & ->); [lia|].
    rewrite all_chars_append in Ht. apply andb_true_iff in Ht.
    destruct Ht as (_ & Hc). simpl in Hc. rewrite andb_true_r in Hc.
    replace (l ++ String "@" (d ++ String "." (t' ++ String c EmptyString)))%string
      with ((l ++ String "@" (d ++ String "." t')) ++ String c EmptyString)%string.
    + apply rstrip_ends_nonspace. now apply tld_not_space.
    + rewrite append_assoc. simpl. rewrite append_assoc. reflexivity.
  - destruct l as [|c l]; [simpl in Nl; lia|]. simpl in *.
    apply andb_true_iff in Hl. destruct Hl as (Hc & _).
    now apply local_not_space.
Qed.

End NormalizeFacts.

(* ================================================================== *)
(** ** Further properties of the extractor *)

Module ExtractorProperties.

Import PyStr Notions StrFacts ReFacts ScanFacts ShapeFacts EmailExtractor.
Import ExtractionProperties ExtractorFacts NormalizeFacts.

(** X1.  Every address [extract_from_text] returns has the shape the
    pattern reads: a local part of one character or more, one [@], a domain
    of one character or more, a dot and a top level of two characters or
    more, each part within its character class. *)
Theorem extracted_addresses_have_address_shape (self : t) (text : string) :
  Forall Address (snd (extract_from_text self text)).
Proof. apply extract_from_text_facts. Qed.

(** X2.  Unless the case is kept, every address [extract_from_text]
    returns is in lower case: lower-casing it again changes nothing. *)
Theorem extracted_addresses_are_lower_case (cache : list string)
    (text : string) :
  Forall (fun x => lower x = x)
    (snd (extract_from_text
            {| case_sensitive := false; _extracted_emails := cache |} text)).
Proof. now apply extract_from_text_facts. Qed.

(** X3.  From a text without [@], the empty text among them,
    [extract_from_text] returns the empty list and leaves the extractor,
    session cache included, as it was. *)
Theorem text_without_at_yields_nothing (self : t) (text : string) :
  has_char "@" text = false -> extract_from_text self text = (self, []).
Proof.
  intros H. rewrite extract_from_text_eq, (finditer_without_at text H).
  now destruct self.
Qed.

Lemma text_without_at_yields_nothing_witness :
  extract_from_text (init false) "no address in here, only a dot.com"
  = (init false, []).
Proof. apply text_without_at_yields_nothing. reflexivity. Defined.

(** X4.  The matches of the address pattern in a text do not overlap: each
    ends at or before the offset where the next begins; and each is at
    least six characters long. *)
Theorem matches_do_not_overlap (text : string) :
  Disjoint_spans (Re.finditer EMAIL_PATTERN text) /\
  Forall (fun sp => 6 <= String.length (snd sp))
         (Re.finditer EMAIL_PATTERN text).
Proof.
  split; [apply finditer_from_disjoint|].
  pose proof (finditer_addresses text) as F.
  eapply Forall_impl; [|exact F].
  intros [off m] (l & d & t & E & Nl & _ & Nd & _ & Nt & _). simpl in *.
  subst m. rewrite length_append. simpl. rewrite length_append. simpl. lia.
Qed.

(** X5.  [extract_from_text] keeps the case mode, and the session cache
    after the call holds what it held before together with the addresses
    returned, and nothing else; a cache without repetition stays so. *)
Theorem session_cache_accumulates (self : t) (text : string) :
  case_sensitive (fst (extract_from_text self text)) = case_sensitive self /\
  (forall x,
      In x (_extracted_emails (fst (extract_from_text self text))) <->
      In x (_extracted_emails self)
      \/ In x (snd (extract_from_text self text))) /\
  (NoDup (_extracted_emails self) ->
   NoDup (_extracted_emails (fst (extract_from_text self text)))).
Proof.
  rewrite extract_from_text_eq. simpl.
  destruct (text_fold_cache
              (map (fun sp => norm (case_sensitive self) (snd sp))
                   (Re.finditer EMAIL_PATTERN text))
              (_extracted_emails self)) as (_ & I & N).
  split; [reflexivity|]. split; [exact I|exact N].
Qed.

Lemma session_cache_accumulates_witness :
  NoDup (_extracted_emails
           (fst (extract_from_text
                   {| case_sensitive := false;
                      _extracted_emails := ["old@x.org"] |}
                   "new@y.org and OLD@x.org"))).
Proof.
  apply (session_cache_accumulates
           {| case_sensitive := false; _extracted_emails := ["old@x.org"] |}
           "new@y.org and OLD@x.org").
  simpl. constructor; [intros []|constructor].
Defined.

(** X6.  A path that does not exist, or whose file cannot be read, can be
    taken out of the list given to [extract_from_files] without changing
    what it returns or what it leaves in the extractor. *)
Theorem unreadable_file_is_skipped (h : Host) (self : t)
    (before after : list string) (p : string) :
  path_exists h p = false \/ (exists e, read_text h p = inl e) ->
  extract_from_files h self (before ++ p :: after)
  = extract_from_files h self (before ++ after).
Proof.
  intros H. rewrite !extract_from_files_eq, !fold_left_app. simpl.
  assert (forall st, gather h st p = st) as ->; [|reflexivity].
  intros [x all]. unfold gather, extract_from_file.
  destruct H as [-> | (e & ->)]; simpl; [reflexivity|].
  now destruct (path_exists h p).
Qed.

Lemma unreadable_file_is_skipped_witness :
  extract_from_files disk_host (init false) ["a.txt"; "locked.txt"; "b.txt"]
  = extract_from_files disk_host (init false) ["a.txt"; "b.txt"].
Proof.
  apply (unreadable_file_is_skipped disk_host (init false)
           ["a.txt"] ["b.txt"] "locked.txt").
  right. now exists "Permission denied".
Defined.

(** X7.  On a list of one readable file [extract_from_files] returns what
    [extract_from_file] returns for that file, and leaves the extractor as
    [extract_from_file] does. *)
Theorem one_file_list_agrees_with_file (h : Host) (self self' : t)
    (p : string) (r : list string) :
  extract_from_file h self p = (self', inr r) ->
  extract_from_files h self [p] = (self', r).
Proof.
  intros H. rewrite extract_from_files_eq. simpl. rewrite H. simpl.
  destruct (extract_from_file_facts _ _ _ _ _ H) as (N & _).
  now rewrite (files_fold_nodup r N).
Qed.

Lemma one_file_list_agrees_with_file_witness :
  extract_from_files disk_host (init false) ["a.txt"]
  = ({| case_sensitive := false;
        _extracted_emails := ["ann@x.org"; "bob@y.org"] |},
     ["ann@x.org"; "bob@y.org"]).
Proof.
  apply one_file_list_agrees_with_file. reflexivity.
Defined.

(** X8.  What [extract_from_files] returns has no address twice, and every
    address in it has the shape of an address. *)
Theorem files_result_is_clean (h : Host) (self : t)
    (file_paths : list string) :
  NoDup (snd (extract_from_files h self file_paths)) /\
  Forall Address (snd (extract_from_files h self file_paths)).
Proof.
  destruct (extract_from_files_facts h self file_paths) as (N & A & _).
  now split.
Qed.

(** X9.  [normalize_email] is idempotent, and on a string that has the
    shape of an address it only lower-cases: there is nothing to strip. *)
Theorem normalize_email_idempotent :
  (forall email,
      normalize_email (normalize_email email) = normalize_email email) /\
  (forall x, Address x -> normalize_email x = lower x).
Proof.
  split.
  - intros email. unfold normalize_email.
    now rewrite lower_strip, lower_idempotent, strip_idempotent.
  - intros x A. unfold normalize_email. now apply strip_address, address_lower.
Qed.

Lemma normalize_email_idempotent_witness :
  normalize_email "Ann.Lee@Mail.Example.ORG" = "ann.lee@mail.example.org".
Proof.
  apply (proj2 normalize_email_idempotent).
  exists "Ann.Lee", "Mail.Example", "ORG". simpl. repeat split; lia.
Defined.

End ExtractorProperties.

(* ================================================================== *)
(** ** More on category maps *)

Module CategorizerMoreFacts.

Import PyStr EmailCategorizer Notions CatmapFacts StrFacts CategorizerFacts.

Lemma listed_append_to (k k' v : string) (m : catmap) :
  listed k (append_to k' v m)
  = if String.eqb k' k then listed k m ++ [v] else listed k m.
Proof.
  unfold listed. induction m as [|[k0 l] m IH]; simpl.
  - now destruct (String.eqb k' k).
  - destruct (String.eqb_spec k0 k') as [->|N0]; simpl.
    + now destruct (String.eqb k' k).
    + destruct (String.eqb_spec k0 k) as [->|N1]; [|exact IH].
      destruct (String.eqb_spec k' k) as [->|]; [now destruct N0|easy].
Qed.

(** Each list of a pass holds, in the order of the input, the addresses
    that have its label. *)
Lemma bucket_listed (label : string -> option string) (k : string)
    (emails : list string) (m : catmap) :
  listed k (fold_left (bucket_step label) emails m)
  = listed k m ++ filter (has_label label k) emails.
Proof.
  revert m. induction emails as [|e emails IH]; simpl; intros m.
  - now rewrite app_nil_r.
  - rewrite IH. unfold bucket_step, has_label at 2.
    destruct (label e) as [k'|]; [|reflexivity].
    rewrite listed_append_to.
    destruct (String.eqb k' k); [now rewrite <- app_assoc|reflexivity].
Qed.

Lemma append_to_present (k v : string) (m : catmap) :
  In k (map fst m) -> map fst (append_to k v m) = map fst m.
Proof.
  induction m as [|[k' l] m IH]; simpl; [intros []|].
  destruct (String.eqb_spec k' k) as [->|N]; simpl; [easy|].
  intros [H|H]; [now destruct N|]. now rewrite IH.
Qed.

Lemma type_label_known (e : string) : In (type_label e) TYPE_LABELS.
Proof.
  unfold type_label, TYPE_LABELS.
  destruct (_extract_domain e) as [d|]; [|simpl; tauto].
  repeat match goal with
         | |- context [if ?b then _ else _] => destruct b
         end; simpl; tauto.
Qed.

Lemma type_keys (emails : list string) :
  map fst (categorize_by_type emails) = TYPE_LABELS.
Proof.
  rewrite categorize_by_type_bucket.
  assert (forall m, map fst m = TYPE_LABELS ->
            map fst (fold_left (bucket_step (fun e => Some (type_label e)))
                       emails m) = TYPE_LABELS) as H; [|now apply H].
  induction emails as [|e emails IH]; simpl; intros m Hm; [exact Hm|].
  apply IH. unfold bucket_step. rewrite append_to_present; [exact Hm|].
  rewrite Hm. apply type_label_known.
Qed.

Lemma lookup_listed (k : string) (m : catmap) :
  In k (map fst m) -> lookup k m = Some (listed k m).
Proof.
  unfold listed. induction m as [|[k' l] m IH]; simpl; [intros []|].
  destruct (String.eqb_spec k' k) as [->|N]; [easy|].
  intros [H|H]; [now destruct N|]. now apply IH.
Qed.

Lemma lookup_some_listed (k : string) (m : catmap) (l : list string) :
  lookup k m = Some l -> listed k m = l.
Proof. unfold listed. now intros ->. Qed.

Lemma listed_not_key (k : string) (m : catmap) :
  ~ In k (map fst m) -> listed k m = [].
Proof.
  unfold listed. induction m as [|[k' l] m IH]; simpl; [easy|].
  intros H. destruct (String.eqb_spec k' k) as [->|N]; [tauto|].
  apply IH. tauto.
Qed.

Lemma categorize_by_keywords_bucket (emails : list string)
    (keywords : list (string * list string)) :
  categorize_by_keywords emails keywords
  = fold_left
      (bucket_step (fun e =>
         Some (or_uncategorized (keyword_scan (lower e) keywords))))
      emails [].
Proof.
  apply fold_left_ext. intros m e. unfold keywords_step, bucket_step.
  now destruct (keyword_scan (lower e) keywords).
Qed.


Lemma keyword_scan_first (x : string)
    (before after : list (string * list string)) (c : string)
    (kws : list string) :
  (forall c' kws' kw, In (c', kws') before -> In kw kws' ->
                      contains (lower kw) x = false) ->
  (exists kw, In kw kws /\ contains (lower kw) x = true) ->
  keyword_scan x (before ++ (c, kws) :: after) = Some c.
Proof.
  intros Hb (kw & Hin & Hkw).
  induction before as [|[c' kws'] before IH]; simpl.
  - assert (existsb (fun keyword => contains (lower keyword) x) kws = true)
      as ->; [|reflexivity].
    apply existsb_exists. now exists kw.
  - assert (existsb (fun keyword => contains (lower keyword) x) kws' = false)
      as ->.
    { destruct (existsb _ kws') eqn:E; [|reflexivity].
      apply existsb_exists in E. destruct E as (k0 & H0 & H1).
      rewrite (Hb c' kws' k0) in H1; [discriminate|now left|exact H0]. }
    apply IH. intros c0 kws0 k0 H0. apply (Hb c0 kws0 k0). now right.
Qed.

Lemma keyword_scan_none (x : string) (keywords : list (string * list string)) :
  (forall c kws kw, In (c, kws) keywords -> In kw kws ->
                    contains (lower kw) x = false) ->
  keyword_scan x keywords = None.
Proof.
  induction keywords as [|[c kws] keywords IH]; simpl; intros H; [easy|].
  assert (existsb (fun keyword => contains (lower keyword) x) kws = false)
    as ->.
  { destruct (existsb _ kws) eqn:E; [|reflexivity].
    apply existsb_exists in E. destruct E as (k0 & H0 & H1).
    rewrite (H c kws k0) in H1; [discriminate|now left|exact H0]. }
  apply IH. intros c0 kws0 k0 H0. apply (H c0 kws0 k0). now right.
Qed.


Lemma compile_all_failure (h : Host) (patterns : list (string * string))
    (c p : string) :
  In (c, p) patterns -> re_compile h p = None -> compile_all h patterns = None.
Proof.
  induction patterns as [|[c' p'] ps IH]; simpl; [intros []|].
  intros [H|H] E.
  - injection H as -> ->. now rewrite E.
  - rewrite (IH H E). now destruct (re_compile h p').
Qed.

Lemma total_count_all_values (m : catmap) :
  total_count (get_statistics m) = List.length (all_values m).
Proof.
  induction m as [|[k l] m IH]; simpl; [easy|].
  rewrite all_values_cons, length_app, <- IH. reflexivity.
Qed.

Lemma fold_left_collect {A : Type} (f : A -> list string) (l : list A)
    (acc : list string) :
  fold_left (fun filtered x => filtered ++ f x) l acc = acc ++ flat_map f l.
Proof.
  revert acc. induction l as [|a l IH]; simpl; intros acc.
  - now rewrite app_nil_r.
  - now rewrite IH, app_assoc.
Qed.

Lemma filter_by_category_flat (m : catmap) (categories : list string) :
  filter_by_category m categories
  = flat_map (fun c => listed c m) categories.
Proof.
  unfold filter_by_category.
  rewrite (fold_left_ext _ (fun filtered c => filtered ++ listed c m)).
  - now rewrite fold_left_collect.
  - intros acc c. unfold listed.
    destruct (lookup c m); [reflexivity|now rewrite app_nil_r].
Qed.

Lemma exclude_categories_flat (m : catmap) (categories : list string) :
  exclude_categories m categories
  = flat_map (fun kl => if mem (fst kl) categories then [] else snd kl) m.
Proof.
  unfold exclude_categories.
  rewrite (fold_left_ext _
    (fun filtered kl =>
       filtered ++ (if mem (fst kl) categories then [] else snd kl))).
  - now rewrite fold_left_collect.
  - intros acc [c l]. simpl.
    destruct (mem c categories); [now rewrite app_nil_r|reflexivity].
Qed.

Lemma listed_cons (c k : string) (l : list string) (m : catmap) :
  listed c ((k, l) :: m) = if String.eqb k c then l else listed c m.
Proof. unfold listed. simpl. now destruct (String.eqb k c). Qed.

Lemma filter_by_category_cons (k : string) (l : list string) (m : catmap)
    (categories : list string) :
  NoDup categories -> ~ In k (map fst m) ->
  Permutation
    (flat_map (fun c => listed c ((k, l) :: m)) categories)
    ((if mem k categories then l else [])
       ++ flat_map (fun c => listed c m) categories).
Proof.
  intros N Hk. induction categories as [|c cs IH]; simpl; [constructor|].
  apply NoDup_cons_iff in N. destruct N as (Hc & N). specialize (IH N).
  rewrite listed_cons. unfold mem in *. simpl.
  destruct (String.eqb_spec k c) as [->|Nc]; simpl.
  - rewrite (listed_not_key c m Hk). simpl.
    apply Permutation_app_head. rewrite IH.
    assert (existsb (String.eqb c) cs = false) as ->; [|reflexivity].
    destruct (existsb (String.eqb c) cs) eqn:E; [|reflexivity].
    apply (mem_In c cs) in E. tauto.
  - rewrite IH. apply Permutation_app_swap_app.
Qed.

(** The addresses of the labels asked for and those of the other labels
    are together the addresses of the map. *)
Lemma filter_exclude_complement (m : catmap) (categories : list string) :
  NoDup categories -> NoDup (map fst m) ->
  Permutation
    (filter_by_category m categories ++ exclude_categories m categories)
    (all_values m).
Proof.
  intros Nc. rewrite filter_by_category_flat, exclude_categories_flat.
  induction m as [|[k l] m IH]; simpl; intros Nm.
  - assert (flat_map (fun c => listed c []) categories = []) as ->;
      [|constructor].
    clear. induction categories as [|c cs IH]; [reflexivity|exact IH].
  - apply NoDup_cons_iff in Nm. destruct Nm as (Hk & Nm). specialize (IH Nm).
    rewrite all_values_cons, (filter_by_category_cons k l m categories Nc Hk).
    destruct (mem k categories); simpl.
    + rewrite <- app_assoc. now apply Permutation_app_head.
    + rewrite <- IH. apply Permutation_app_swap_app.
Qed.

Lemma dict_get_assign_same {V : Type} (k : string) (v : V)
    (d : list (string * V)) :
  dict_get k (assign k v d) = Some v.
Proof.
  induction d as [|[k' v'] d IH]; simpl.
  - now rewrite String.eqb_refl.
  - destruct (String.eqb k' k) eqn:E; simpl; now rewrite E.
Qed.

Lemma dict_get_assign_other {V : Type} (k k' : string) (v : V)
    (d : list (string * V)) :
  k' <> k -> dict_get k (assign k' v d) = dict_get k d.
Proof.
  intros N. induction d as [|[k0 v0] d IH]; simpl.
  - now destruct (String.eqb_spec k' k).
  - destruct (String.eqb_spec k0 k') as [->|N0]; simpl.
    + now destruct (String.eqb_spec k' k).
    + now rewrite IH.
Qed.

Lemma mem_snoc (x a : string) (l : list string) :
  mem x (l ++ [a]) = mem x l || String.eqb x a.
Proof.
  unfold mem. rewrite existsb_app. simpl. now rewrite orb_false_r.
Qed.

End CategorizerMoreFacts.

(* ================================================================== *)
(** ** Further properties of the categorizer *)

Module CategorizerMoreProperties.

Import PyStr EmailCategorizer Notions CatmapFacts StrFacts CategorizerFacts.
Import CategorizerMoreFacts.

Lemma In_lookup (k : string) (l : list string) (m : catmap) :
  NoDup (map fst m) -> In (k, l) m -> lookup k m = Some l.
Proof.
  induction m as [|[k' l'] m IH]; simpl; intros N; [intros []|].
  apply NoDup_cons_iff in N. destruct N as (Hk & N).
  intros [H|H].
  - injection H as -> ->. now rewrite String.eqb_refl.
  - destruct (String.eqb_spec k' k) as [->|]; [|now apply IH].
    exfalso. apply Hk. apply in_map_iff. now exists (k, l).
Qed.

Lemma bucket_keys (label : string -> option string) (emails : list string) :
  forall m k,
    In k (map fst (fold_left (bucket_step label) emails m)) ->
    In k (map fst m) \/ exists e, In e emails /\ label e = Some k.
Proof.
  induction emails as [|e emails IH]; simpl; intros m k H; [now left|].
  apply IH in H. destruct H as [H|(e' & He' & L)].
  - unfold bucket_step in H. destruct (label e) as [k'|] eqn:E; [|now left].
    apply append_to_keys in H. destruct H as [->|H]; [|now left].
    right. exists e. auto.
  - right. exists e'. auto.
Qed.

(** X10.  Whatever the input, the map [categorize_by_type] returns has the
    five labels free, business, educational, government, other, in this
    order, and the list of each holds the addresses of that type in the
    order of the input. *)
Theorem type_map_labels_and_order (emails : list string) :
  map fst (categorize_by_type emails) = TYPE_LABELS /\
  forall k, In k TYPE_LABELS ->
    lookup k (categorize_by_type emails)
    = Some (filter (fun e => String.eqb (type_label e) k) emails).
Proof.
  split; [apply type_keys|]. intros k Hk.
  rewrite lookup_listed by (now rewrite type_keys).
  rewrite categorize_by_type_bucket, bucket_listed.
  assert (listed k type_init = []) as ->; [|reflexivity].
  unfold listed, type_init. simpl.
  repeat match goal with
         | |- context [if ?b then _ else _] => destruct b; try reflexivity
         end.
Qed.

Lemma type_map_labels_and_order_witness :
  lookup "free"
    (categorize_by_type ["a@gmail.com"; "b@x.org"; "c@yahoo.com"])
  = Some ["a@gmail.com"; "c@yahoo.com"].
Proof.
  apply (proj2 (type_map_labels_and_order
                  ["a@gmail.com"; "b@x.org"; "c@yahoo.com"]) "free").
  simpl. auto.
Defined.

(** X11.  In the map [categorize_by_domain] returns every label is a
    non-empty lower-case string, and its list is not empty: it holds, in the
    order of the input, the addresses whose domain is the label. *)
Theorem domain_map_lists (emails : list string) (k : string)
    (l : list string) :
  In (k, l) (categorize_by_domain emails) ->
  truthy k = true /\ lower k = k /\ l <> [] /\
  l = filter (fun e => match _extract_domain e with
                       | Some d => String.eqb d k
                       | None => false
                       end) emails.
Proof.
  intros H.
  destruct (domain_partitions emails) as (N & _).
  assert (In k (map fst (categorize_by_domain emails))) as Hk.
  { apply in_map_iff. now exists (k, l). }
  apply (In_lookup _ _ _ N), lookup_some_listed in H.
  rewrite categorize_by_domain_bucket in Hk, H.
  apply bucket_keys in Hk. destruct Hk as [[]|(e & He & L)].
  rewrite bucket_listed in H. simpl in H.
  assert (exists d, _extract_domain e = Some d /\ truthy d = true /\ d = k)
    as (d & Ed & Td & ->).
  { unfold domain_label in L. destruct (_extract_domain e) as [d|];
      [|discriminate].
    destruct (truthy d) eqn:T; [|discriminate].
    injection L as <-. now exists d. }
  split; [exact Td|]. split; [|split].
  - unfold _extract_domain in Ed.
    destruct (nth_error (split "@" e) 1); [|discriminate].
    injection Ed as <-. apply ShapeFacts.lower_idempotent.
  - intros ->.
    assert (In e (filter (has_label domain_label k) emails)) as F.
    { apply filter_In. split; [exact He|]. unfold has_label.
      rewrite L. apply String.eqb_refl. }
    rewrite H in F. destruct F.
  - rewrite <- H. apply filter_ext. intros x. unfold has_label, domain_label.
    destruct (_extract_domain x) as [d|]; [|reflexivity].
    destruct (truthy d) eqn:T; [reflexivity|].
    destruct d; [|discriminate]. destruct k; [discriminate|reflexivity].
Qed.

Lemma domain_map_lists_witness :
  lower "x.org" = "x.org" /\
  ["A@x.org"; "b@X.ORG"]
  = filter (fun e => match _extract_domain e with
                     | Some d => String.eqb d "x.org"
                     | None => false
                     end) ["A@x.org"; "c@y.org"; "b@X.ORG"].
Proof.
  destruct (domain_map_lists ["A@x.org"; "c@y.org"; "b@X.ORG"]
              "x.org" ["A@x.org"; "b@X.ORG"]) as (_ & L & _ & F).
  - simpl. auto.
  - now split.
Defined.

(** X12.  Under the keyword strategy the first category, in the order of
    the mapping, one of whose keywords occurs in the address decides: the
    address is listed there and nowhere else, case making no difference.
    An address none of the keywords occurs in is listed under
    [uncategorized]. *)
Theorem keywords_first_match_wins (emails : list string) (e : string) :
  In e emails ->
  (forall before after c kws,
      (forall c' kws' kw, In (c', kws') before -> In kw kws' ->
                          contains (lower kw) (lower e) = false) ->
      (exists kw, In kw kws /\ contains (lower kw) (lower e) = true) ->
      let m := categorize_by_keywords emails (before ++ (c, kws) :: after) in
      (exists l, lookup c m = Some l /\ In e l) /\
      (forall k l, lookup k m = Some l -> In e l -> k = c)) /\
  (forall keywords,
      (forall c kws kw, In (c, kws) keywords -> In kw kws ->
                        contains (lower kw) (lower e) = false) ->
      exists l,
        lookup "uncategorized" (categorize_by_keywords emails keywords)
        = Some l /\ In e l).
Proof.
  intros He. split.
  - intros before after c kws Hb Hk m.
    pose proof (keyword_scan_first (lower e) before after c kws Hb Hk) as S.
    assert (exists l, lookup c m = Some l /\ In e l) as (l & Hl & Hel).
    { unfold m. rewrite categorize_by_keywords_bucket.
      apply bucket_lists; [exact He|]. now rewrite S. }
    split; [now exists l|].
    intros k l' Hl' Hel'.
    destruct (keywords_partitions emails (before ++ (c, kws) :: after))
      as (_ & _ & X).
    exact (X e k c l' l (lookup_In _ _ _ Hl') (lookup_In _ _ _ Hl) Hel' Hel).
  - intros keywords Hn. rewrite categorize_by_keywords_bucket.
    apply bucket_lists; [exact He|].
    now rewrite (keyword_scan_none _ _ Hn).
Qed.

Lemma keywords_first_match_wins_witness :
  exists l,
    lookup "help"
      (categorize_by_keywords ["Sales-Support@x.org"]
         [("billing", ["invoice"]); ("help", ["SUPPORT"]);
          ("sales", ["sales"])])
    = Some l /\ In "Sales-Support@x.org" l.
Proof.
  apply (proj1 (keywords_first_match_wins ["Sales-Support@x.org"]
                  "Sales-Support@x.org" (or_introl eq_refl))
           [("billing", ["invoice"])] [("sales", ["sales"])]
           "help" ["SUPPORT"]).
  - intros c' kws' kw [H|[]] Hk. injection H as <- <-.
    destruct Hk as [<-|[]]. reflexivity.
  - exists "SUPPORT". split; [now left|reflexivity].
Defined.



(** X14.  Under the pattern strategy one pattern that does not compile
    makes the call raise, wherever it stands in the mapping and whatever
    the addresses are, the empty list included: nothing is categorized. *)
Theorem bad_pattern_fails_the_call (h : Host) (emails : list string)
    (patterns : list (string * string)) (c p : string) :
  In (c, p) patterns -> re_compile h p = None ->
  categorize_by_pattern h emails patterns = inl RegexError.
Proof.
  intros Hin E. unfold categorize_by_pattern.
  now rewrite (compile_all_failure h patterns c p Hin E).
Qed.

Lemma bad_pattern_fails_the_call_witness :
  categorize_by_pattern literal_host []
    [("admin", "admin"); ("open", "(ad"); ("info", "info")]
  = inl RegexError.
Proof.
  apply (bad_pattern_fails_the_call literal_host []
           [("admin", "admin"); ("open", "(ad"); ("info", "info")]
           "open" "(ad").
  - simpl. auto.
  - reflexivity.
Defined.

(** X15.  A category of the keyword strategy that has the empty string
    among its keywords takes every address that reaches it: when it is the
    first category the whole input is listed under it. *)
Theorem empty_keyword_catches_all (emails : list string) (c : string)
    (kws : list string) (rest : list (string * list string)) :
  In EmptyString kws -> emails <> [] ->
  categorize_by_keywords emails ((c, kws) :: rest) = [(c, emails)].
Proof.
  intros Hk Hne.
  assert (forall m e, keywords_step ((c, kws) :: rest) m e = append_to c e m)
    as S.
  { intros m e. unfold keywords_step. simpl.
    assert (existsb (fun keyword => contains (lower keyword) (lower e)) kws
            = true) as ->; [|reflexivity].
    apply existsb_exists. exists EmptyString.
    split; [exact Hk|now destruct (lower e)]. }
  destruct emails as [|e emails]; [now destruct Hne|].
  unfold categorize_by_keywords. simpl. rewrite S. simpl.
  assert (forall es l, fold_left (keywords_step ((c, kws) :: rest)) es
                         [(c, l)] = [(c, l ++ es)]) as F.
  { induction es as [|a es IH]; intros l; simpl; [now rewrite app_nil_r|].
    rewrite S. simpl. rewrite String.eqb_refl, IH, <- app_assoc.
    reflexivity. }
  apply F.
Qed.

Lemma empty_keyword_catches_all_witness :
  categorize_by_keywords ["a@x.org"; "b@y.org"]
    [("all", ["vip"; EmptyString]); ("sales", ["sales"])]
  = [("all", ["a@x.org"; "b@y.org"])].
Proof.
  apply empty_keyword_catches_all.
  - simpl. auto.
  - discriminate.
Defined.

(** X16.  The counts [get_statistics] gives for the map of the type,
    keyword, pattern or custom strategy add up to the number of addresses
    given; for the map of the domain strategy they add up to the number of
    addresses kept.  The statistics have the labels of the map, in its
    order. *)
Theorem statistics_add_up (h : Host) (emails : list string)
    (keywords : list (string * list string))
    (patterns : list (string * string))
    (rules : list (string * rule)) :
  total_count (get_statistics (categorize_by_type emails))
  = List.length emails /\
  total_count (get_statistics (categorize_by_keywords emails keywords))
  = List.length emails /\
  (forall m, categorize_by_pattern h emails patterns = inr m ->
             total_count (get_statistics m) = List.length emails) /\
  total_count (get_statistics (categorize_by_custom_rule emails rules))
  = List.length emails /\
  total_count (get_statistics (categorize_by_domain emails))
  = List.length (filter (labelled domain_label) emails) /\
  (forall m, map fst (get_statistics m) = map fst m).
Proof.
  assert (forall m l, Partitions m l ->
            total_count (get_statistics m) = List.length l) as P.
  { intros m l (_ & Hp & _). rewrite total_count_all_values.
    now apply Permutation_length. }
  split; [apply P, type_partitions|].
  split; [apply P, keywords_partitions|].
  split; [intros m Hm; eapply P, pattern_partitions, Hm|].
  split; [apply P, custom_partitions|].
  split; [apply P, domain_partitions|].
  intros m. unfold get_statistics. rewrite map_map.
  apply map_ext. now intros [k l].
Qed.

Lemma statistics_add_up_witness :
  total_count
    (get_statistics
       [("s", ["sales@x.org"]); ("uncategorized", ["b@y.org"; "c@z.org"])])
  = 3.
Proof.
  destruct (statistics_add_up bare_host ["sales@x.org"; "b@y.org"; "c@z.org"]
              [] [("s", "sales")] []) as (_ & _ & H & _).
  apply H. reflexivity.
Defined.

(** X17.  For labels asked for without repetition, the addresses
    [filter_by_category] returns and those [exclude_categories] returns
    are together the addresses of the map, each as often as the map lists
    it; excluding no label returns all the addresses of the map. *)
Theorem filter_and_exclude_are_complementary (m : catmap) :
  (forall categories,
      NoDup categories -> NoDup (map fst m) ->
      Permutation
        (filter_by_category m categories ++ exclude_categories m categories)
        (all_values m)) /\
  exclude_categories m [] = all_values m.
Proof.
  split; [intros; now apply filter_exclude_complement|].
  rewrite exclude_categories_flat. unfold all_values. simpl.
  rewrite <- flat_map_concat_map. apply flat_map_ext. now intros [k l].
Qed.

Lemma filter_and_exclude_are_complementary_witness :
  let m := categorize_by_type ["a@gmail.com"; "b@x.org"; "c@uni.edu"] in
  Permutation
    (filter_by_category m ["educational"; "nowhere"; "free"]
       ++ exclude_categories m ["educational"; "nowhere"; "free"])
    (all_values m).
Proof.
  intros m.
  apply (proj1 (filter_and_exclude_are_complementary m)).
  - repeat (constructor; [simpl; intuition discriminate|]). constructor.
  - unfold m. rewrite type_keys.
    repeat (constructor; [simpl; intuition discriminate|]). constructor.
Defined.

(** X18.  [categorize_multi] files the map of the domain strategy under
    [domain] when [domain] is among the methods, the map of the type
    strategy under [type] when [type] is, and nothing else: any other
    method name is passed over without an error. *)
Theorem categorize_multi_knows_two_methods (emails methods : list string) :
  dict_get "domain" (categorize_multi emails methods)
  = (if mem "domain" methods then Some (categorize_by_domain emails)
     else None) /\
  dict_get "type" (categorize_multi emails methods)
  = (if mem "type" methods then Some (categorize_by_type emails) else None) /\
  (forall k, k <> "domain" -> k <> "type" ->
             dict_get k (categorize_multi emails methods) = None).
Proof.
  unfold categorize_multi.
  induction methods as [|method methods IH] using rev_ind; [easy|].
  rewrite fold_left_app, !mem_snoc. cbn [fold_left].
  destruct IH as (D & T & O).
  destruct (String.eqb_spec method "domain") as [->|Nd].
  - rewrite dict_get_assign_same, String.eqb_refl, orb_true_r.
    rewrite dict_get_assign_other by discriminate.
    change (String.eqb "type" "domain") with false.
    split; [reflexivity|]. split; [now rewrite orb_false_r|].
    intros k K1 K2. rewrite dict_get_assign_other by congruence. now apply O.
  - destruct (String.eqb_spec method "type") as [->|Nt].
    + rewrite dict_get_assign_same, String.eqb_refl, orb_true_r.
      rewrite dict_get_assign_other by discriminate.
      change (String.eqb "domain" "type") with false.
      split; [now rewrite orb_false_r|]. split; [reflexivity|].
      intros k K1 K2. rewrite dict_get_assign_other by congruence.
      now apply O.
    + assert (String.eqb "domain" method = false) as ->
        by (apply String.eqb_neq; congruence).
      assert (String.eqb "type" method = false) as ->
        by (apply String.eqb_neq; congruence).
      rewrite !orb_false_r. now repeat split.
Qed.

Lemma categorize_multi_knows_two_methods_witness :
  dict_get "keywords"
    (categorize_multi ["a@x.org"] ["type"; "keywords"; "type"]) = None.
Proof.
  apply (categorize_multi_knows_two_methods ["a@x.org"]
           ["type"; "keywords"; "type"]); discriminate.
Defined.

End CategorizerMoreProperties.

(* ================================================================== *)
(** ** More on the engine *)

Module EngineMoreFacts.

Import PyStr EmailCategorizer EmailEngine Notions CatmapFacts StrFacts.
Import CategorizerFacts ShapeFacts ExtractorFacts CategorizerMoreFacts.

(** What a call of [extract] that returns has stored and returned. *)
Lemma extract_success (h : Host) (self self' : t) (src : source)
    (source_type : string) (r : list string) :
  extract h self src source_type = (self', inr r) ->
  emails self' = r /\ NoDup r /\ Forall Address r.
Proof.
  unfold extract.
  destruct (String.eqb source_type "text").
  { set (text := match src with Str s => s | Paths l => str_of_list h l end).
    destruct (ExtractorFacts.extract_from_text_facts (extractor self) text)
      as (N & A & _).
    destruct (EmailExtractor.extract_from_text _ _) as [x r0].
    intros H. injection H as <- <-. now repeat split. }
  destruct (String.eqb source_type "file").
  { destruct src as [p|l]; [|discriminate].
    destruct (EmailExtractor.extract_from_file _ _ _) as [x [e|r0]] eqn:E;
      [discriminate|].
    intros H. injection H as <- <-.
    destruct (extract_from_file_facts _ _ _ _ _ E) as (N & (A & _) & _).
    now repeat split. }
  destruct (String.eqb source_type "files").
  { destruct src as [p|l]; [discriminate|].
    destruct (extract_from_files_facts h (extractor self) l) as (N & A & _).
    destruct (EmailExtractor.extract_from_files _ _ _) as [x r0].
    intros H. injection H as <- <-. now repeat split. }
  destruct (String.eqb source_type "directory"); [|discriminate].
  destruct src as [p|l]; [|discriminate].
  unfold EmailExtractor.extract_from_directory.
  destruct (is_dir h p); simpl; [|discriminate].
  destruct (extract_from_files_facts h (extractor self) (glob_files h p))
    as (N & A & _).
  destruct (EmailExtractor.extract_from_files _ _ _) as [x r0].
  intros H. injection H as <- <-. now repeat split.
Qed.

(** The domain strategy keeps every address of a list of addresses. *)
Lemma domain_keeps_addresses (l : list string) :
  Forall Address l -> filter (labelled domain_label) l = l.
Proof.
  induction 1 as [|x l A F IH]; simpl; [reflexivity|].
  destruct (address_domain x A) as (d & E & T).
  assert (labelled domain_label x = true) as ->.
  { unfold labelled, domain_label. now rewrite E, T. }
  now rewrite IH.
Qed.

(** What a call of [categorize] that returns has stored and returned. *)
Lemma categorize_success (h : Host) (self self' : t) (method : string)
    (kw : kwargs) (m : catmap) :
  categorize h self method kw = (self', inr m) ->
  Forall Address (emails self) ->
  categorized self' = m /\ emails self' = emails self /\
  emails self <> [] /\ Partitions m (emails self).
Proof.
  unfold categorize. intros H A.
  destruct (emails self) as [|e es] eqn:E; [discriminate|].
  assert (e :: es <> []) as Ne by discriminate.
  destruct (String.eqb method "domain").
  { injection H as <- <-. simpl. rewrite E. repeat split; try assumption.
    - apply domain_partitions.
    - rewrite <- (domain_keeps_addresses (e :: es) A) at 2.
      apply domain_partitions.
    - apply domain_partitions. }
  destruct (String.eqb method "type").
  { injection H as <- <-. simpl. rewrite E. repeat split; try assumption;
      apply type_partitions. }
  destruct (String.eqb method "keywords").
  { destruct (falsy (keywords kw)); [discriminate|].
    injection H as <- <-. simpl. rewrite E. repeat split; try assumption;
      apply keywords_partitions. }
  destruct (String.eqb method "pattern").
  { destruct (falsy (patterns kw)); [discriminate|].
    destruct (categorize_by_pattern h (e :: es) (get (patterns kw)))
      as [err|m0] eqn:P; [discriminate|].
    injection H as <- <-. simpl. rewrite E. repeat split; try assumption;
      eapply pattern_partitions, P. }
  destruct (String.eqb method "custom"); [|discriminate].
  destruct (falsy (rules kw)); [discriminate|].
  injection H as <- <-. simpl. rewrite E. repeat split; try assumption;
    apply custom_partitions.
Qed.

Lemma partitions_nonempty (m : catmap) (l : list string) :
  Partitions m l -> l <> [] -> m <> [].
Proof.
  intros (_ & P & _) Hl ->. simpl in P. apply Permutation_nil in P.
  now apply Hl.
Qed.

Lemma csv_first_column (m : catmap) :
  map (hd EmptyString)
    (flat_map
       (fun '(category, category_emails) =>
          map (fun email => [email; category]) category_emails) m)
  = all_values m.
Proof.
  induction m as [|[k l] m IH]; simpl; [reflexivity|].
  rewrite map_app, IH, map_map, all_values_cons. simpl.
  now rewrite map_id.
Qed.

Lemma csv_rows_listed (m : catmap) (row : list string) :
  In row
    (flat_map
       (fun '(category, category_emails) =>
          map (fun email => [email; category]) category_emails) m) ->
  exists e k l, row = [e; k] /\ In (k, l) m /\ In e l.
Proof.
  intros H. apply in_flat_map in H. destruct H as ([k l] & Hm & Hr).
  apply in_map_iff in Hr. destruct Hr as (e & <- & He).
  now exists e, k, l.
Qed.

End EngineMoreFacts.

(* ================================================================== *)
(** ** Further properties of the engine *)

Module EngineMoreProperties.

Import PyStr EmailCategorizer EmailEngine Notions CatmapFacts StrFacts.
Import CategorizerFacts ShapeFacts ExtractorFacts CategorizerMoreFacts.
Import EngineMoreFacts.

(** X19.  Whatever the source type, the list a call of [extract] returns
    and stores has no address twice, and every address in it has the shape
    of an address. *)
Theorem extract_stores_clean_list (h : Host) (self self' : t) (src : source)
    (source_type : string) (r : list string) :
  extract h self src source_type = (self', inr r) ->
  emails self' = r /\ NoDup r /\ Forall Address r.
Proof. apply extract_success. Qed.

Lemma extract_stores_clean_list_witness :
  NoDup ["ann@x.org"; "bob@y.org"; "cy@z.net"] /\
  Forall Address ["ann@x.org"; "bob@y.org"; "cy@z.net"].
Proof.
  apply (extract_stores_clean_list disk_host (init false)
           (fst (extract disk_host (init false) (Str "mail") "directory"))
           (Str "mail") "directory"
           ["ann@x.org"; "bob@y.org"; "cy@z.net"]).
  reflexivity.
Defined.

(** X20.  The domain strategy drops none of the addresses the extractor
    returns: on the result of [extract_from_text] its lists are together
    that result up to order. *)
Theorem domain_strategy_keeps_extracted_addresses (self : EmailExtractor.t)
    (text : string) :
  Partitions
    (categorize_by_domain (snd (EmailExtractor.extract_from_text self text)))
    (snd (EmailExtractor.extract_from_text self text)).
Proof.
  destruct (extract_from_text_facts self text) as (_ & A & _).
  rewrite <- (domain_keeps_addresses _ A) at 2. apply domain_partitions.
Qed.

(** X21.  What [process] returns is consistent: the addresses and the map
    are those the engine now holds, [total_emails] is the number of
    addresses, the statistics are those of the map and add up to
    [total_emails], and the lists of the map are together the addresses up
    to order, whatever the method. *)
Theorem process_result_is_consistent (h : Host) (self self' : t)
    (src : source) (source_type method : string) (kw : kwargs)
    (res : process_result) :
  process h self src source_type method kw = (self', inr res) ->
  res_emails res = emails self' /\
  res_categorized res = categorized self' /\
  res_total_emails res = List.length (res_emails res) /\
  res_statistics res = get_statistics (res_categorized res) /\
  total_count (res_statistics res) = res_total_emails res /\
  Partitions (res_categorized res) (res_emails res) /\
  res_emails res <> [].
Proof.
  unfold process.
  destruct (extract h self src source_type) as [e1 [err|r]] eqn:E;
    [discriminate|].
  destruct (categorize h e1 method kw) as [e2 [err|m]] eqn:C; [discriminate|].
  intros H. injection H as <- <-. simpl.
  destruct (extract_success _ _ _ _ _ _ E) as (Er & _ & A).
  rewrite <- Er in A.
  destruct (categorize_success _ _ _ _ _ _ C A) as (Cm & Ce & Ne & P).
  rewrite Er in *.
  repeat split; try congruence; try apply P.
  rewrite total_count_all_values. apply Permutation_length, P.
Qed.

Lemma process_result_is_consistent_witness :
  total_count
    (get_statistics
       (categorize_by_domain ["ann@gmail.com"; "bob@x.org"; "cy@x.org"]))
  = 3.
Proof.
  destruct (process_result_is_consistent bare_host (init false)
              (fst (process bare_host (init false)
                      (Str "Ann@gmail.com, bob@x.org; cy@X.org") "text"
                      "domain" no_kwargs))
              (Str "Ann@gmail.com, bob@x.org; cy@X.org") "text"
              "domain" no_kwargs
              {| res_total_emails := 3;
                 res_emails := ["ann@gmail.com"; "bob@x.org"; "cy@x.org"];
                 res_categorized :=
                   categorize_by_domain
                     ["ann@gmail.com"; "bob@x.org"; "cy@x.org"];
                 res_statistics :=
                   get_statistics
                     (categorize_by_domain
                        ["ann@gmail.com"; "bob@x.org"; "cy@x.org"]) |})
    as (_ & _ & _ & _ & T & _); [reflexivity|exact T].
Defined.

(** X22.  [process] on a text without [@] raises the error of
    [categorize] on nothing extracted; the engine is then left with an
    empty list of addresses and with the category map it had before the
    call. *)
Theorem process_without_addresses (h : Host) (self : t) (text : string)
    (method : string) (kw : kwargs) :
  has_char "@" text = false ->
  process h self (Str text) "text" method kw
  = ({| extractor := extractor self;
        emails := [];
        categorized := categorized self |},
     inl no_emails_error).
Proof.
  intros H. unfold process, extract.
  change (String.eqb "text" "text") with true. cbv iota.
  rewrite extract_from_text_eq, (finditer_without_at text H). simpl.
  now destruct (extractor self).
Qed.

Lemma process_without_addresses_witness :
  let before :=
    {| extractor := EmailExtractor.init false;
       emails := ["a@gmail.com"];
       categorized := categorize_by_type ["a@gmail.com"] |} in
  process bare_host before (Str "nothing to find") "text" "type" no_kwargs
  = ({| extractor := EmailExtractor.init false;
        emails := [];
        categorized := categorize_by_type ["a@gmail.com"] |},
     inl no_emails_error).
Proof.
  intros before.
  apply (process_without_addresses bare_host before "nothing to find").
  reflexivity.
Defined.

(** X23.  After [extract] and [categorize] have returned, [filter_emails]
    does not raise; for labels given without repetition, the addresses it
    returns for them as [categories] and those it returns for them as
    [exclude_categories] are together the extracted addresses up to order;
    [categories] takes precedence when both are given; with neither, the
    extracted list is returned as it is. *)
Theorem filter_emails_splits_extracted (h : Host) (e0 e1 e2 : t)
    (src : source) (source_type method : string) (kw : kwargs)
    (r : list string) (m : catmap) (cats : list string) :
  extract h e0 src source_type = (e1, inr r) ->
  categorize h e1 method kw = (e2, inr m) ->
  NoDup cats -> cats <> [] ->
  exists kept rest,
    (forall excluded, filter_emails e2 (Some cats) excluded = inr kept) /\
    filter_emails e2 None (Some cats) = inr rest /\
    Permutation (kept ++ rest) r /\
    filter_emails e2 None None = inr r.
Proof.
  intros E C Nc Hc.
  destruct (extract_success _ _ _ _ _ _ E) as (Er & _ & A).
  rewrite <- Er in A.
  destruct (categorize_success _ _ _ _ _ _ C A) as (Cm & Ce & Ne & P).
  rewrite Er in *.
  pose proof (partitions_nonempty _ _ P Ne) as Hm.
  exists (filter_by_category m cats), (exclude_categories m cats).
  unfold filter_emails. rewrite Cm, Ce.
  destruct m as [|kl m]; [now destruct Hm|].
  destruct cats as [|c cats]; [now destruct Hc|]. simpl.
  repeat split.
  destruct P as (Nk & Pm & _).
  rewrite <- Pm. now apply filter_exclude_complement.
Qed.

Lemma filter_emails_splits_extracted_witness :
  let e1 :=
    fst (extract bare_host (init false)
           (Str "Ann@gmail.com, bob@x.org; cy@uni.edu") "text") in
  let e2 := fst (categorize bare_host e1 "type" no_kwargs) in
  exists kept rest,
    filter_emails e2 (Some ["free"; "educational"]) None = inr kept /\
    filter_emails e2 None (Some ["free"; "educational"]) = inr rest /\
    Permutation (kept ++ rest) ["ann@gmail.com"; "bob@x.org"; "cy@uni.edu"].
Proof.
  intros e1 e2.
  destruct (filter_emails_splits_extracted bare_host (init false) e1 e2
              (Str "Ann@gmail.com, bob@x.org; cy@uni.edu") "text" "type"
              no_kwargs ["ann@gmail.com"; "bob@x.org"; "cy@uni.edu"]
              (categorize_by_type ["ann@gmail.com"; "bob@x.org"; "cy@uni.edu"])
              ["free"; "educational"])
    as (kept & rest & K & R & P & _).
  - reflexivity.
  - reflexivity.
  - repeat (constructor; [simpl; intuition discriminate|]). constructor.
  - discriminate.
  - exists kept, rest. split; [apply K|]. now split.
Defined.

(** X24.  After [extract] and [categorize] have returned, [get_summary]
    reports a categorization, the number of extracted addresses, the labels
    of the map in its order and statistics that add up to that number;
    after [reset] it reports no address and no categorization. *)
Theorem summary_after_categorize (h : Host) (e0 e1 e2 : t)
    (src : source) (source_type method : string) (kw : kwargs)
    (r : list string) (m : catmap) :
  extract h e0 src source_type = (e1, inr r) ->
  categorize h e1 method kw = (e2, inr m) ->
  get_summary e2
  = {| sum_total_emails := List.length r;
       sum_has_categorization := true;
       sum_categories := Some (map fst m);
       sum_statistics := Some (get_statistics m) |} /\
  total_count (get_statistics m) = List.length r /\
  get_summary (reset e2)
  = {| sum_total_emails := 0;
       sum_has_categorization := false;
       sum_categories := None;
       sum_statistics := None |}.
Proof.
  intros E C.
  destruct (extract_success _ _ _ _ _ _ E) as (Er & _ & A).
  rewrite <- Er in A.
  destruct (categorize_success _ _ _ _ _ _ C A) as (Cm & Ce & Ne & P).
  rewrite Er in *.
  pose proof (partitions_nonempty _ _ P Ne) as Hm.
  split; [|split; [|reflexivity]].
  - unfold get_summary. rewrite Cm, Ce.
    destruct m as [|kl m]; [now destruct Hm|reflexivity].
  - rewrite total_count_all_values. apply Permutation_length, P.
Qed.

Lemma summary_after_categorize_witness :
  let e1 :=
    fst (extract bare_host (init false)
           (Str "Ann@gmail.com, bob@x.org") "text") in
  let e2 := fst (categorize bare_host e1 "domain" no_kwargs) in
  sum_categories (get_summary e2) = Some ["gmail.com"; "x.org"] /\
  sum_total_emails (get_summary e2) = 2.
Proof.
  intros e1 e2.
  destruct (summary_after_categorize bare_host (init false) e1 e2
              (Str "Ann@gmail.com, bob@x.org") "text" "domain" no_kwargs
              ["ann@gmail.com"; "bob@x.org"]
              (categorize_by_domain ["ann@gmail.com"; "bob@x.org"]))
    as (S & _); [reflexivity|reflexivity|].
  rewrite S. now split.
Defined.

(** X25.  After [extract] and [categorize] have returned, the rows
    [export_to_csv] writes with the category column are the header
    followed by one row for every extracted address, pairing it with a
    label it is listed under; without the column, or on an engine without
    categorization, it writes the header [Email] and the extracted
    addresses in their order. *)
Theorem csv_rows_pair_addresses_with_labels (h : Host) (e0 e1 e2 : t)
    (src : source) (source_type method : string) (kw : kwargs)
    (r : list string) (m : catmap) :
  extract h e0 src source_type = (e1, inr r) ->
  categorize h e1 method kw = (e2, inr m) ->
  (exists rows,
      export_to_csv e2 true = ["Email"; "Category"] :: rows /\
      Permutation (map (hd EmptyString) rows) r /\
      forall row, In row rows ->
        exists e k l, row = [e; k] /\ lookup k m = Some l /\ In e l) /\
  export_to_csv e2 false = ["Email"] :: map (fun e => [e]) r /\
  (forall self,
      categorized self = [] ->
      export_to_csv self true
      = ["Email"] :: map (fun e => [e]) (emails self)).
Proof.
  intros E C.
  destruct (extract_success _ _ _ _ _ _ E) as (Er & _ & A).
  rewrite <- Er in A.
  destruct (categorize_success _ _ _ _ _ _ C A) as (Cm & Ce & Ne & P).
  rewrite Er in *.
  pose proof (partitions_nonempty _ _ P Ne) as Hm.
  split; [|split].
  - unfold export_to_csv. rewrite Cm.
    destruct m as [|kl m'] eqn:M; [now destruct Hm|]. rewrite <- M in *.
    eexists. split; [reflexivity|]. split.
    + rewrite csv_first_column. apply P.
    + intros row Hr. apply csv_rows_listed in Hr.
      destruct Hr as (e & k & l & -> & Hkl & He). exists e, k, l.
      split; [reflexivity|]. split; [|exact He].
      apply CategorizerMoreProperties.In_lookup; [apply P|exact Hkl].
  - unfold export_to_csv. now rewrite Ce.
  - intros self Hs. unfold export_to_csv. now rewrite Hs.
Qed.

Lemma csv_rows_pair_addresses_with_labels_witness :
  let e1 :=
    fst (extract bare_host (init false)
           (Str "Ann@gmail.com, bob@x.org") "text") in
  let e2 := fst (categorize bare_host e1 "type" no_kwargs) in
  export_to_csv e2 false = [["Email"]; ["ann@gmail.com"]; ["bob@x.org"]] /\
  export_to_csv e2 true
  = [["Email"; "Category"]; ["ann@gmail.com"; "free"];
     ["bob@x.org"; "business"]].
Proof.
  intros e1 e2.
  destruct (csv_rows_pair_addresses_with_labels bare_host (init false) e1 e2
              (Str "Ann@gmail.com, bob@x.org") "text" "type" no_kwargs
              ["ann@gmail.com"; "bob@x.org"]
              (categorize_by_type ["ann@gmail.com"; "bob@x.org"]))
    as (_ & F & _); [reflexivity|reflexivity|].
  split; [exact F|reflexivity].
Defined.

End EngineMoreProperties.

(* ================================================================== *)
(** ** From validation to extraction *)

Module RoundTripFacts.

Import PyStr Notions ReFacts ScanFacts ShapeFacts EmailExtractor.

(** A repetition settles on the longest run after which the rest of the
    pattern succeeds. *)
Lemma rep_first (cls : ascii -> bool) (min : nat)
    (k : option ascii -> string -> option nat) (w s' : string) (r : nat) :
  forall n prev,
    all_chars cls w = true ->
    min <= n + String.length w ->
    k (last_char prev w) s' = Some r ->
    (forall u s'', s' = (u ++ s'')%string -> 1 <= String.length u ->
                   all_chars cls u = true ->
                   k (last_char prev (w ++ u)) s'' = None) ->
    Re.rep cls min k n prev (w ++ s')%string = Some (String.length w + r).
Proof.
  induction w as [|c w IH]; intros n prev Hw Hn Hk Hx.
  - simpl in *.
    assert ((if min <=? n then k prev s' else None) = Some r) as Stop.
    { destruct (Nat.leb_spec min n); [exact Hk|lia]. }
    destruct s' as [|d s']; simpl; [exact Stop|].
    destruct (cls d) eqn:Hd; [|exact Stop].
    destruct (Re.rep cls min k (S n) (Some d) s') as [r0|] eqn:E;
      [|exact Stop].
    exfalso. apply rep_sound in E.
    destruct E as (w0 & s0 & r' & -> & Hw0 & _ & Hk0 & _).
    assert (k (last_char prev (String d w0)) s0 = None) as Hn'.
    { apply Hx; [reflexivity|simpl; lia|simpl; now rewrite Hd, Hw0]. }
    simpl in Hn'. congruence.
  - simpl in Hw. apply andb_true_iff in Hw. destruct Hw as (Hc & Hw).
    simpl. rewrite Hc. rewrite (IH (S n) (Some c)); [reflexivity|exact Hw| | |].
    + simpl in Hn. lia.
    + exact Hk.
    + exact Hx.
Qed.

Lemma substring_whole (s : string) : substring 0 (String.length s) s = s.
Proof. induction s as [|c s IH]; simpl; [easy|]. now rewrite IH. Qed.

Lemma advance_whole (s : string) :
  forall prev, snd (Re.advance (String.length s) prev s) = EmptyString.
Proof. induction s as [|c s IH]; intros prev; simpl; [easy|apply IH]. Qed.

Lemma search_empty (prev : option ascii) :
  Re.search EMAIL_PATTERN prev EmptyString = None.
Proof.
  unfold EMAIL_PATTERN. simpl. now destruct (Re.is_boundary prev None).
Qed.

Lemma lit_needs_char (full : bool) (c : ascii) (p : Re.pattern)
    (prev : option ascii) (s : string) :
  has_char c s = false -> Re.match_here full (Re.Lit c :: p) prev s = None.
Proof.
  destruct s as [|d s]; simpl; [easy|].
  intros H. apply orb_false_iff in H. destruct H as (-> & _). reflexivity.
Qed.

Lemma lit_step (full : bool) (c : ascii) (p : Re.pattern)
    (prev : option ascii) (s : string) :
  Re.match_here full (Re.Lit c :: p) prev (String c s)
  = option_map S (Re.match_here full p (Some c) s).
Proof. simpl. now rewrite Ascii.eqb_refl. Qed.

Lemma rep_step (full : bool) (cls : ascii -> bool) (min : nat)
    (p : Re.pattern) (prev : option ascii) (s : string) :
  Re.match_here full (Re.Rep cls min :: p) prev s
  = Re.rep cls min (Re.match_here full p) 0 prev s.
Proof. reflexivity. Qed.

Lemma boundary_step (full : bool) (p : Re.pattern) (prev : option ascii)
    (s : string) :
  Re.match_here full (Re.Boundary :: p) prev s
  = if Re.is_boundary prev (Re.peek s) then Re.match_here full p prev s
    else None.
Proof. reflexivity. Qed.

(** On a string that matches the pattern as a whole, the match at its
    start is the whole string. *)
Lemma match_whole (s : string) :
  Matches EMAIL_PATTERN None s ->
  Re.match_here false EMAIL_PATTERN None s = Some (String.length s).
Proof.
  intros M. apply ValidationProperties.email_pattern_matches in M.
  destruct M as (l & d & t & -> & Nl & Hl & Nd & Hd & Nt & Ht & B1 & B2).
  assert (Re.match_here false [Re.Rep tld_class 2; Re.Boundary]
            (Some "."%char) t = Some (String.length t)) as Rt.
  { rewrite rep_step.
    rewrite <- (ValidationProperties.append_empty_r t) at 1.
    rewrite <- (Nat.add_0_r (String.length t)).
    apply rep_first; [exact Ht|lia| |].
    - rewrite boundary_step. simpl Re.peek.
      now rewrite ValidationProperties.boundary_at_end, B2.
    - intros u s'' E Hu. destruct u; [simpl in Hu; lia|discriminate]. }
  assert (Re.match_here false
            [Re.Rep domain_class 1; Re.Lit "."; Re.Rep tld_class 2;
             Re.Boundary]
            (Some "@"%char) (d ++ String "." t)
          = Some (String.length d + S (String.length t))) as Rd.
  { rewrite rep_step. apply rep_first; [exact Hd|lia| |].
    - now rewrite lit_step, Rt.
    - intros u s'' E Hu Hcu. apply lit_needs_char.
      destruct u as [|c u]; [simpl in Hu; lia|]. simpl in E.
      injection E as _ E.
      pose proof (class_without tld_class "." t eq_refl Ht) as Hdot.
      rewrite E, has_char_append in Hdot.
      now apply orb_false_iff in Hdot. }
  unfold EMAIL_PATTERN.
  rewrite boundary_step, ValidationProperties.boundary_at_start, B1.
  rewrite rep_step.
  rewrite length_append. simpl String.length. rewrite length_append.
  simpl String.length.
  apply rep_first; [exact Hl|lia| |].
  - now rewrite lit_step, Rd.
  - intros u s'' E Hu Hcu. destruct u as [|c u]; [simpl in Hu; lia|].
    simpl in E. injection E as <- _. simpl in Hcu. discriminate.
Qed.

Lemma finditer_whole (s : string) :
  Matches EMAIL_PATTERN None s ->
  Re.finditer EMAIL_PATTERN s = [(0, s)].
Proof.
  intros M. pose proof (match_whole s M) as H.
  assert (6 <= String.length s) as L.
  { apply ValidationProperties.email_pattern_matches in M.
    destruct M as (l & d & t & -> & Nl & _ & Nd & _ & Nt & _).
    rewrite length_append. simpl. rewrite length_append. simpl. lia. }
  assert (Re.search EMAIL_PATTERN None s = Some (0, String.length s)) as S.
  { destruct s; cbn [Re.search]; now rewrite H. }
  unfold Re.finditer. rewrite finditer_from_unfold, S.
  rewrite substring_whole.
  replace (Nat.max 1 (String.length s)) with (String.length s) by lia.
  rewrite !Nat.add_0_l.
  rewrite Nat.ltb_irrefl, advance_whole.
  destruct (String.length s) as [|n]; [lia|].
  now rewrite finditer_from_unfold, search_empty.
Qed.

End RoundTripFacts.

(* ================================================================== *)
(** ** Validation and extraction together *)

Module RoundTripProperties.

Import PyStr Notions ReFacts EmailExtractor ExtractorFacts RoundTripFacts.

(** X26.  A string [validate_email] accepts, given as a text, is extracted
    as the one address of the text: [extract_from_text] returns the list of
    just this string, lower-cased unless the case is kept. *)
Theorem valid_email_is_extracted_whole (self : t) (email : string) :
  validate_email email = true ->
  snd (extract_from_text self email) = [norm (case_sensitive self) email].
Proof.
  intros V. apply fullmatch_iff in V.
  rewrite extract_from_text_eq, (finditer_whole email V). reflexivity.
Qed.

Lemma valid_email_is_extracted_whole_witness :
  snd (extract_from_text (init false) "Admin+Tag@Company.co.uk")
  = ["admin+tag@company.co.uk"].
Proof.
  apply (valid_email_is_extracted_whole (init false)
           "Admin+Tag@Company.co.uk").
  reflexivity.
Defined.

End RoundTripProperties.

(* ================================================================== *)
(** ** Repeating a call *)

Module RepeatFacts.

Import PyStr Notions StrFacts EmailExtractor ExtractionProperties.
Import ExtractorFacts.

Lemma set_add_old (x : string) (c : list string) :
  In x c -> set_add x c = c.
Proof. intros H. unfold set_add. apply mem_In in H. now rewrite H. Qed.

(** When the cache already holds what the loop will return, the loop
    leaves the cache alone. *)
Lemma text_fold_stable (emails cache : list string) :
  (forall x,
      In x (snd (fst (fold_left text_step emails ([], [], cache)))) ->
      In x cache) ->
  snd (fold_left text_step emails ([], [], cache)) = cache.
Proof.
  induction emails as [|e emails IH] using rev_ind; [reflexivity|].
  rewrite fold_left_app. simpl.
  destruct (fold_left text_step emails ([], [], cache)) as [[seen u] c].
  simpl in *. unfold text_step.
  destruct (mem e seen); simpl; intros H; [now apply IH|].
  rewrite IH.
  - apply set_add_old, H, in_or_app. right. now left.
  - intros x Hx. apply H, in_or_app. now left.
Qed.

Lemma extract_from_text_stable (self : t) (text : string) :
  (forall x, In x (snd (extract_from_text self text)) ->
             In x (_extracted_emails self)) ->
  fst (extract_from_text self text) = self.
Proof.
  rewrite extract_from_text_eq. simpl. intros H.
  rewrite text_fold_stable by exact H. now destruct self.
Qed.

(** What is returned does not depend on the cache. *)
Lemma extract_from_text_same (a b : t) (text : string) :
  case_sensitive a = case_sensitive b ->
  snd (extract_from_text a text) = snd (extract_from_text b text).
Proof. intros H. now rewrite !extract_from_text_result, H. Qed.

Lemma extract_from_text_grows (self : t) (text : string) (x : string) :
  In x (_extracted_emails self) \/ In x (snd (extract_from_text self text)) ->
  In x (_extracted_emails (fst (extract_from_text self text))).
Proof.
  rewrite extract_from_text_eq. simpl.
  destruct (text_fold_cache
              (map (fun sp => norm (case_sensitive self) (snd sp))
                   (Re.finditer EMAIL_PATTERN text))
              (_extracted_emails self)) as (_ & I & _).
  apply I.
Qed.

Lemma within_refl (a : t) : Within a a.
Proof. now split. Qed.

Lemma within_trans (a b c : t) : Within a b -> Within b c -> Within a c.
Proof. intros (E1 & I1) (E2 & I2). split; [congruence|auto]. Qed.

Lemma extract_from_text_within (self : t) (text : string) :
  Within self (fst (extract_from_text self text)).
Proof.
  split; [symmetry; apply extract_from_text_mode|].
  intros x H. apply extract_from_text_grows. now left.
Qed.

Section Files.

Variable h : Host.

Lemma gather_step_within (self : t) (all : list string) (p : string) :
  Within self (fst (gather h (self, all) p)).
Proof.
  unfold gather, extract_from_file.
  destruct (path_exists h p); simpl; [|apply within_refl].
  destruct (read_text h p) as [e|text]; [apply within_refl|].
  pose proof (extract_from_text_within self text) as W.
  now destruct (extract_from_text self text).
Qed.

Lemma gather_within (ps : list string) :
  forall self all, Within self (fst (fold_left (gather h) ps (self, all))).
Proof.
  induction ps as [|p ps IH]; intros self all; [apply within_refl|].
  cbn [fold_left]. pose proof (gather_step_within self all p) as W.
  destruct (gather h (self, all) p) as [self1 all1].
  eapply within_trans; [exact W|apply IH].
Qed.

Lemma gather_covers (ps : list string) :
  forall self all,
    Covers h (fst (fold_left (gather h) ps (self, all))) ps.
Proof.
  induction ps as [|p ps IH]; intros self all; [intros p text x []|].
  cbn [fold_left]. intros p' text x [<-|Hin] Hp Ht Hx.
  - assert (gather h (self, all) p
            = (fst (extract_from_text self text),
               all ++ snd (extract_from_text self text))) as E.
    { unfold gather, extract_from_file. rewrite Hp, Ht. simpl.
      now destruct (extract_from_text self text). }
    rewrite E in *.
    pose proof (gather_within ps (fst (extract_from_text self text))
                  (all ++ snd (extract_from_text self text))) as (Wm & Wi).
    apply Wi, extract_from_text_grows. right.
    rewrite (extract_from_text_same self
               (fst (fold_left (gather h) ps
                       (fst (extract_from_text self text),
                        all ++ snd (extract_from_text self text)))) text);
      [exact Hx|].
    rewrite <- Wm. symmetry. apply extract_from_text_mode.
  - destruct (gather h (self, all) p) as [self1 all1].
    now apply (IH self1 all1 p' text x).
Qed.

(** With everything already in the cache a pass over the files leaves the
    extractor alone. *)
Lemma gather_stable (ps : list string) :
  forall self all,
    Covers h self ps -> fst (fold_left (gather h) ps (self, all)) = self.
Proof.
  induction ps as [|p ps IH]; intros self all C; [reflexivity|].
  cbn [fold_left].
  assert (fst (gather h (self, all) p) = self) as E.
  { unfold gather, extract_from_file.
    destruct (path_exists h p) eqn:Hp; simpl; [|reflexivity].
    destruct (read_text h p) as [e|text] eqn:Ht; [reflexivity|].
    pose proof (extract_from_text_stable self text) as S.
    destruct (extract_from_text self text) as [self1 r] eqn:Ex. simpl in *.
    apply S. intros x Hx.
    apply (C p text x); [now left|exact Hp|exact Ht|now rewrite Ex]. }
  destruct (gather h (self, all) p) as [self1 all1]. simpl in E. subst self1.
  apply IH. intros p' text x Hin. apply (C p' text x). now right.
Qed.

(** What a pass gathers does not depend on the cache. *)
Lemma gather_same (ps : list string) :
  forall a b all,
    case_sensitive a = case_sensitive b ->
    snd (fold_left (gather h) ps (a, all))
    = snd (fold_left (gather h) ps (b, all)).
Proof.
  induction ps as [|p ps IH]; intros a b all E; [reflexivity|].
  cbn [fold_left].
  assert (exists a1 b1 all1,
            gather h (a, all) p = (a1, all1) /\
            gather h (b, all) p = (b1, all1) /\
            case_sensitive a1 = case_sensitive b1) as (a1 & b1 & all1 & -> & -> & M).
  { unfold gather, extract_from_file.
    destruct (path_exists h p); simpl; [|now exists a, b, all].
    destruct (read_text h p) as [e|text]; [now exists a, b, all|].
    pose proof (extract_from_text_same a b text E) as R.
    pose proof (extract_from_text_mode a text) as Ma.
    pose proof (extract_from_text_mode b text) as Mb.
    destruct (extract_from_text a text) as [a1 ra].
    destruct (extract_from_text b text) as [b1 rb].
    simpl in *. subst rb. exists a1, b1, (all ++ ra).
    repeat split. congruence. }
  now apply IH.
Qed.

Lemma extract_from_files_again (self : t) (ps : list string) :
  extract_from_files h (fst (extract_from_files h self ps)) ps
  = extract_from_files h self ps.
Proof.
  rewrite !extract_from_files_eq. simpl.
  pose proof (gather_covers ps self []) as C.
  pose proof (gather_within ps self []) as (M & _).
  rewrite (gather_stable ps _ [] C).
  now rewrite (gather_same ps _ self [] (eq_sym M)).
Qed.

Lemma extract_from_file_again (self self' : t) (p : string)
    (r : list string) :
  extract_from_file h self p = (self', inr r) ->
  extract_from_file h self' p = (self', inr r).
Proof.
  unfold extract_from_file.
  destruct (path_exists h p); simpl; [|discriminate].
  destruct (read_text h p) as [e|text]; [discriminate|].
  pose proof (extract_from_text_within self text) as (M & _).
  pose proof (extract_from_text_grows self text) as G.
  destruct (extract_from_text self text) as [s1 r1] eqn:E. simpl in *.
  intros H. injection H as <- <-.
  pose proof (extract_from_text_same s1 self text (eq_sym M)) as R.
  rewrite E in R. simpl in R.
  pose proof (extract_from_text_stable s1 text) as S.
  destruct (extract_from_text s1 text) as [s2 r2]. simpl in *. subst r2.
  rewrite S; [reflexivity|]. intros x Hx. apply G. now right.
Qed.

End Files.

Lemma extract_from_text_again (self : t) (text : string) :
  extract_from_text (fst (extract_from_text self text)) text
  = extract_from_text self text.
Proof.
  pose proof (extract_from_text_within self text) as (M & _).
  pose proof (extract_from_text_grows self text) as G.
  pose proof (extract_from_text_same (fst (extract_from_text self text))
                self text (eq_sym M)) as R.
  pose proof (extract_from_text_stable (fst (extract_from_text self text))
                text) as S.
  destruct (extract_from_text (fst (extract_from_text self text)) text)
    as [s2 r2].
  simpl in *. subst r2. rewrite S.
  - now destruct (extract_from_text self text).
  - intros x Hx. apply G. now right.
Qed.

End RepeatFacts.

(* ================================================================== *)
(** ** Properties of repeated calls *)

Module RepeatProperties.

Import PyStr EmailCategorizer EmailEngine Notions RepeatFacts.

Lemma set_emails_same (self : t) (x : EmailExtractor.t) (r : list string) :
  set_emails (set_emails self x r) x r = set_emails self x r.
Proof. reflexivity. Qed.

(** X27.  Repeating a call of [extract] that returned, on the same source
    and with nothing changed outside, returns the same list and leaves the
    engine, the session cache included, exactly as the first call left
    it. *)
Theorem extract_again_changes_nothing (h : Host) (self e1 : t)
    (src : source) (source_type : string) (r : list string) :
  extract h self src source_type = (e1, inr r) ->
  extract h e1 src source_type = (e1, inr r).
Proof.
  unfold extract.
  destruct (String.eqb source_type "text").
  { set (text := match src with Str s => s | Paths l => str_of_list h l end).
    pose proof (extract_from_text_again (extractor self) text) as A.
    destruct (EmailExtractor.extract_from_text (extractor self) text)
      as [x r0].
    intros H. injection H as <- <-. simpl in *. now rewrite A. }
  destruct (String.eqb source_type "file").
  { destruct src as [p|l]; [|discriminate].
    destruct (EmailExtractor.extract_from_file h (extractor self) p)
      as [x [e|r0]] eqn:E; [discriminate|].
    intros H. injection H as <- <-. simpl.
    now rewrite (extract_from_file_again h _ _ _ _ E). }
  destruct (String.eqb source_type "files").
  { destruct src as [p|l]; [discriminate|].
    pose proof (extract_from_files_again h (extractor self) l) as A.
    destruct (EmailExtractor.extract_from_files h (extractor self) l)
      as [x r0].
    intros H. injection H as <- <-. simpl in *. now rewrite A. }
  destruct (String.eqb source_type "directory"); [|discriminate].
  destruct src as [p|l]; [|discriminate].
  unfold EmailExtractor.extract_from_directory.
  destruct (is_dir h p); simpl; [|discriminate].
  pose proof (extract_from_files_again h (extractor self) (glob_files h p))
    as A.
  destruct (EmailExtractor.extract_from_files h (extractor self)
              (glob_files h p)) as [x r0].
  intros H. injection H as <- <-. simpl in *. now rewrite A.
Qed.

Lemma extract_again_changes_nothing_witness :
  let e1 := fst (extract disk_host (init false) (Str "mail") "directory") in
  extract disk_host e1 (Str "mail") "directory"
  = (e1, inr ["ann@x.org"; "bob@y.org"; "cy@z.net"]).
Proof.
  intros e1.
  apply (extract_again_changes_nothing disk_host (init false) e1).
  reflexivity.
Defined.

Lemma categorize_shape (h : Host) (self self' : t) (method : string)
    (kw : kwargs) (m : catmap) :
  categorize h self method kw = (self', inr m) ->
  self' = set_categorized self m /\
  forall other,
    emails other = emails self ->
    categorize h other method kw = (set_categorized other m, inr m).
Proof.
  unfold categorize. intros H. split.
  - destruct (emails self) as [|e es]; [discriminate|].
    repeat match type of H with
           | context [if ?b then _ else _] => destruct b
           | context [match categorize_by_pattern ?a ?b ?c with _ => _ end] =>
               destruct (categorize_by_pattern a b c)
           end;
      try discriminate; now injection H as <- <-.
  - intros other ->.
    destruct (emails self) as [|e es]; [discriminate|].
    repeat match type of H with
           | context [if ?b then _ else _] => destruct b
           | context [match categorize_by_pattern ?a ?b ?c with _ => _ end] =>
               destruct (categorize_by_pattern a b c)
           end;
      try discriminate; now injection H as _ <-.
Qed.



(** X29.  [categorize] never touches the extracted list or the extractor;
    when it raises the engine is as it was, and when it returns the only
    change is that the category map is the map returned. *)
Theorem categorize_touches_only_the_map (h : Host) (self : t)
    (method : string) (kw : kwargs) :
  emails (fst (categorize h self method kw)) = emails self /\
  extractor (fst (categorize h self method kw)) = extractor self /\
  match snd (categorize h self method kw) with
  | inl _ => fst (categorize h self method kw) = self
  | inr m => categorized (fst (categorize h self method kw)) = m
  end.
Proof.
  destruct (categorize h self method kw) as [self' [e|m]] eqn:C.
  - assert (self' = self) as ->; [|now repeat split].
    unfold categorize in C.
    destruct (emails self) as [|a es]; [now injection C|].
    repeat match type of C with
           | context [if ?b then _ else _] => destruct b
           | context [match categorize_by_pattern ?a ?b ?c with _ => _ end] =>
               destruct (categorize_by_pattern a b c)
           end;
      try discriminate; now injection C.
  - destruct (categorize_shape _ _ _ _ _ _ C) as (-> & _). now repeat split.
Qed.

End RepeatProperties.
